(** * PuTTY [unix/uxmisc.c]: file names, secure directories and
      environment-string expansion

    A shallow embedding of the string and directory routines of
    [unix/uxmisc.c], followed by the properties established for them.

    Conventions of the embedding.
    - A [char *] to a string is the list of bytes found from the pointer
      onwards; the bytes beyond the end of the list read as NUL, so that
      [str[i]] is [at_ str i] and the C string a pointer denotes is
      [c_str].  [&str[k]] is [drop k str].
    - The [int] counters of the source ([i], [j], [pos], [len], ...) only
      ever hold lengths and offsets; they are natural numbers here, the
      lengths involved being taken to fit an [int].  [elen], which also
      takes the value [-1], is a [Z].
    - A block that is written ([dest], the buffers of the serialisers) is
      the list of its bytes, and every access to it is bounds-checked:
      [Fault OutOfBounds] stands for the undefined behaviour of an access
      outside the block.  Allocation does not fail.
    - The C library ([getenv], [strerror], the system calls) is not part
      of the file: the environment and the operating system are
      parameters of the sections below; [isalpha] and [isalnum] are those
      of the C locale. *)

From Stdlib Require Import ZArith Ascii String DecimalString Sorted.
From stdpp Require Import list strings.

Local Open Scope char_scope.
Local Open Scope nat_scope.

(** ** C strings *)

Abbreviation NUL := "000"%char.

(** A string literal as the bytes it stands for. *)
Definition cs (s : string) : list ascii := list_ascii_of_string s.

(** [p[k]]: the byte at offset [k], NUL past the end of the list. *)
Definition at_ (p : list ascii) (k : nat) : ascii := nth k p NUL.

(** The C string found at [p]: the bytes before the first NUL. *)
Fixpoint c_str (p : list ascii) : list ascii :=
  match p with
  | [] => []
  | c :: r => if (c =? NUL)%char then [] else c :: c_str r
  end.

Definition strlen (p : list ascii) : nat := length (c_str p).

(** No NUL inside: the list is exactly the C string it denotes. *)
Definition cstring (p : list ascii) : Prop := Forall (fun c => c <> NUL) p.

(** [strchr(p, c)] for [c] other than NUL: the offset from [p] of the
    first [c] before the terminator, [None] for a null result. *)
Fixpoint strchr (p : list ascii) (c : ascii) : option nat :=
  match p with
  | [] => None
  | d :: r =>
      if (d =? NUL)%char then None
      else if (d =? c)%char then Some 0
      else option_map S (strchr r c)
  end.

(** [strrchr(p, c)]: the offset of the last [c] before the terminator. *)
Fixpoint strrchr (p : list ascii) (c : ascii) : option nat :=
  match p with
  | [] => None
  | d :: r =>
      if (d =? NUL)%char then None
      else match strrchr r c with
           | Some k => Some (S k)
           | None => if (d =? c)%char then Some 0 else None
           end
  end.

(** [strcspn(p, "/")] and [strspn(p, "/")] for a one-character set. *)
Fixpoint strcspn (p : list ascii) (c : ascii) : nat :=
  match p with
  | [] => 0
  | d :: r => if (d =? NUL)%char || (d =? c)%char then 0 else S (strcspn r c)
  end.

Fixpoint strspn (p : list ascii) (c : ascii) : nat :=
  match p with
  | [] => 0
  | d :: r => if (d =? c)%char && negb (d =? NUL)%char then S (strspn r c) else 0
  end.

(** [dupprintf("%.*s", n, p)]: at most [n] bytes of the string at [p]. *)
Definition dup_prec (n : nat) (p : list ascii) : list ascii := take n (c_str p).

(** [dupstr(p)]. *)
Definition dupstr (p : list ascii) : list ascii := c_str p.

(** [<ctype.h>] in the C locale. *)
Definition in_range (lo hi : nat) (c : ascii) : bool :=
  (lo <=? nat_of_ascii c) && (nat_of_ascii c <=? hi).

Definition isdigit (c : ascii) : bool := in_range 48 57 c.
Definition isalpha (c : ascii) : bool := in_range 65 90 c || in_range 97 122 c.
Definition isalnum (c : ascii) : bool := isalpha c || isdigit c.

(** ** Results of code that can fault *)

Inductive fault : Type := OutOfBounds | OutOfFuel.

Inductive result (A : Type) : Type :=
  | Ok (a : A)
  | Fault (f : fault).
Arguments Ok {A} a.
Arguments Fault {A} f.

#[global] Instance result_ret : MRet result := fun _ a => Ok a.
#[global] Instance result_bind : MBind result := fun _ _ k m =>
  match m with
  | Ok a => k a
  | Fault f => Fault f
  end.

(** [block[k] = c] inside an allocated block. *)
Definition store (block : list ascii) (k : nat) (c : ascii) : result (list ascii) :=
  if decide (k < length block) then Ok (<[k := c]> block) else Fault OutOfBounds.

(** Consecutive stores of [l] from offset [k] on. *)
Fixpoint store_all (block : list ascii) (k : nat) (l : list ascii) : result (list ascii) :=
  match l with
  | [] => Ok block
  | c :: r => b ← store block k c; store_all b (S k) r
  end.

(** [sprintf(&block[k], "%s", v)]: the string at [v] and its terminator
    are written; the value is the number of bytes before the terminator. *)
Definition sprintf_s (block : list ascii) (k : nat) (v : list ascii)
  : result (list ascii * nat) :=
  b ← store_all block k (c_str v ++ [NUL]); Ok (b, strlen v).

(** ** File names *)

Record Filename : Type := { path : list ascii }.

Definition filename_from_str (str : list ascii) : Filename := {| path := dupstr str |}.

(** [!strcmp(f1->path, f2->path)]. *)
Definition filename_equal (f1 f2 : Filename) : bool :=
  bool_decide (c_str (path f1) = c_str (path f2)).

(** [strcpy(data, src)]: the string at [src] and its terminator. *)
Definition strcpy (data src : list ascii) : result (list ascii) :=
  store_all data 0 (c_str src ++ [NUL]).

(** [memchr(data, c, n)]: the offset of the first [c] among the first [n]
    bytes, read one after the other up to the first match; a read past
    the end of the block faults. *)
Fixpoint memchr (data : list ascii) (c : ascii) (n : nat) : result (option nat) :=
  match n with
  | 0 => Ok None
  | S n' =>
      match data with
      | [] => Fault OutOfBounds
      | d :: r =>
          if (d =? c)%char then Ok (Some 0)
          else k ← memchr r c n'; Ok (option_map S k)
      end
  end.

(** The value is [len]; the second component is the block at [vdata]
    after the call, [None] standing for a null [vdata]. *)
Definition filename_serialise (f : Filename) (vdata : option (list ascii))
  : result (nat * option (list ascii)) :=
  let len := strlen (path f) + 1 in
  match vdata with
  | Some data => d ← strcpy data (path f); Ok (len, Some d)
  | None => Ok (len, None)
  end.

(** [None] is the null result; otherwise the file name and the value
    stored in [*used]. *)
Definition filename_deserialise (vdata : list ascii) (maxsize : nat)
  : result (option (Filename * nat)) :=
  e ← memchr vdata NUL maxsize;
  match e with
  | None => Ok None
  | Some end_ => Ok (Some (filename_from_str vdata, end_ + 1))
  end.

(** ** [expand_envstrings] *)

Section Expand.

(** [getenv]: the value bound to a name, [None] for a null result. *)
Variable getenv : list ascii -> option (list ascii).

(** What a fresh allocation holds before it is written: the byte at
    each offset is arbitrary. *)
Variable heap_junk : nat -> ascii.

Definition smalloc (n : nat) : list ascii := map heap_junk (seq 0 n).

(** The variables of the function that live across iterations. *)
Record scan_state : Type := ScanState {
  i : nat;
  j : nat;
  skipnext : bool;
  dest : list ascii
}.

(** [j += (pass==1) ? sprintf(&dest[j], "%s", tmps) : strlen(tmps)]. *)
Definition emit_value (pass : bool) (s : scan_state) (i' : nat) (tmps : list ascii)
  : result scan_state :=
  if pass then
    '(d, n) ← sprintf_s (dest s) (j s) tmps;
    Ok (ScanState i' (j s + n) (skipnext s) d)
  else Ok (ScanState i' (j s + strlen tmps) (skipnext s) (dest s)).

(** The length of the run of name characters at [p]:
    [while (isalnum(p[n]) || p[n]=='_') n++]. *)
Fixpoint name_run (p : list ascii) : nat :=
  match p with
  | [] => 0
  | c :: r => if isalnum c || (c =? "_")%char then S (name_run r) else 0
  end.

(** The body of the inner [for] loop, without its [i++]. *)
Definition body (pass : bool) (str : list ascii) (s : scan_state) : result scan_state :=
  let i0 := i s in
  if (at_ str i0 =? "\")%char
     && ((at_ str (i0 + 1) =? "$")%char || (at_ str (i0 + 1) =? "~")%char)
  then Ok (ScanState i0 (j s) true (dest s))
  else if negb (skipnext s) && (at_ str i0 =? "$")%char then
    (* elen, varname and the new value of i *)
    let '(elen, varname, i1) :=
      match (if (at_ str (i0 + 1) =? "{")%char
             then strchr (drop (i0 + 2) str) "}" else None) with
      | Some tmps =>
          (Z.of_nat tmps, dup_prec tmps (drop (i0 + 2) str), i0 + (tmps + 2))
      | None =>
          if isalpha (at_ str (i0 + 1)) || (at_ str (i0 + 1) =? "_")%char then
            let n := 1 + name_run (drop (i0 + 1 + 1) str) in
            (Z.of_nat n, dup_prec n (drop (i0 + 1) str), i0 + n)
          else ((-1)%Z, [], i0)
      end in
    if (0 <? elen)%Z then
      match getenv varname with
      | Some tmps => emit_value pass s i1 tmps
      | None => Ok (ScanState i1 (j s) (skipnext s) (dest s))
      end
    else Ok (ScanState i1 (j s) (skipnext s) (dest s))
  else if negb (skipnext s) && (at_ str i0 =? "~")%char then
    match getenv (cs "HOME") with
    | Some tmps => emit_value pass s i0 tmps
    | None => Ok s
    end
  else
    d ← (if pass then store (dest s) (j s) (at_ str i0) else Ok (dest s));
    Ok (ScanState i0 (j s + 1) false d).

(** [for (...; str[i]; i++) body]. *)
Fixpoint loop (fuel : nat) (pass : bool) (str : list ascii) (s : scan_state)
  : result scan_state :=
  if (at_ str (i s) =? NUL)%char then Ok s
  else match fuel with
       | 0 => Fault OutOfFuel
       | S fuel' =>
           s' ← body pass str s;
           loop fuel' pass str (ScanState (i s' + 1) (j s') (skipnext s') (dest s'))
       end.

(** One pass: [for (i=0, j=0; str[i]; i++)], [skipnext] and [dest]
    being what the function holds at that point. *)
Definition run_pass (pass : bool) (str : list ascii) (sk : bool) (d : list ascii)
  : result scan_state :=
  loop (length str) pass str (ScanState 0 0 sk d).

(** The block the function returns.  The first pass runs with [dest]
    null, which it never dereferences. *)
Definition expand_envstrings (str : list ascii) : result (list ascii) :=
  s0 ← run_pass false str false [];
  s1 ← run_pass true str (skipnext s0) (smalloc (j s0 + 1));
  store (dest s1) (j s1) NUL.

(** *** The scan as a function of the text still to be read

    [step sk c r] is what one iteration does when it finds [c] at
    [str+i] and [r] after it: the bytes it adds to the output, the new
    [skipnext], and how far it moves [i] before the [i++] of the loop.
    [output_from] chains the iterations; it is related to [loop] by
    [loop_count] and [loop_copy] below. *)

Definition value_of (name : list ascii) : list ascii :=
  match getenv name with
  | Some v => c_str v
  | None => []
  end.

Definition step (sk : bool) (c : ascii) (r : list ascii) : list ascii * bool * nat :=
  if (c =? "\")%char && ((at_ r 0 =? "$")%char || (at_ r 0 =? "~")%char)
  then ([], true, 0)
  else if negb sk && (c =? "$")%char then
    match (if (at_ r 0 =? "{")%char then strchr (drop 1 r) "}" else None) with
    | Some n =>
        (if (0 <? Z.of_nat n)%Z then value_of (dup_prec n (drop 1 r)) else [],
         sk, n + 2)
    | None =>
        if isalpha (at_ r 0) || (at_ r 0 =? "_")%char then
          (value_of (dup_prec (1 + name_run (drop 1 r)) r), sk, 1 + name_run (drop 1 r))
        else ([], sk, 0)
    end
  else if negb sk && (c =? "~")%char then (value_of (cs "HOME"), sk, 0)
  else ([c], false, 0).

Fixpoint output_from (fuel : nat) (sk : bool) (p : list ascii) : list ascii :=
  match fuel, p with
  | S fuel', c :: r =>
      if (c =? NUL)%char then []
      else let '(e, sk', n) := step sk c r in
           e ++ output_from fuel' sk' (drop n r)
  | _, _ => []
  end.

(** The text [expand_envstrings] produces for [str]. *)
Definition expansion (str : list ascii) : list ascii :=
  output_from (length str) false str.

(** The string returned, [None] if the function faults. *)
Definition expand (str : list ascii) : option (list ascii) :=
  match expand_envstrings str with
  | Ok d => Some (c_str d)
  | Fault _ => None
  end.

(** [skipnext] is only ever set in front of the character it protects. *)
Definition pending (str : list ascii) (s : scan_state) : Prop :=
  skipnext s = true -> at_ str (i s) = "$" \/ at_ str (i s) = "~".

(** The scan of the whole of [p], entered with [skipnext] at [sk]. *)
Definition scan (sk : bool) (p : list ascii) : list ascii :=
  output_from (length p) sk p.

(** [reaches sk0 p0 out sk p]: entered with [sk0] in [skipnext] and [p0]
    to read, the loop comes, after some iterations, to the test of an
    iteration with [sk] in [skipnext] and [p] left to read, having
    emitted [out]. *)
Inductive reaches (sk0 : bool) (p0 : list ascii)
  : list ascii -> bool -> list ascii -> Prop :=
  | reaches_start : reaches sk0 p0 [] sk0 p0
  | reaches_step out sk c r e sk' n :
      reaches sk0 p0 out sk (c :: r) ->
      c <> NUL ->
      step sk c r = (e, sk', n) ->
      reaches sk0 p0 (out ++ e) sk' (drop n r).

(** [meets str out sk rest]: the scan of [str] comes to [rest] with
    [sk] in [skipnext], having emitted [out]: what starts [rest] is met
    by the scan, escaped if [sk] is set. *)
Definition meets (str out : list ascii) (sk : bool) (rest : list ascii) : Prop :=
  reaches false str out sk rest.

End Expand.

(** ** Where a reference or an escape can be read off the text

    The scan reads some characters together with what follows them.  The
    predicates below say when this does not happen across the point where
    a text [pre] ends and a text [rest] starts, so that what stands at
    the start of [rest] is read for itself. *)

(** A character that can continue a [$NAME]. *)
Definition name_char (c : ascii) : bool := isalnum c || (c =? "_")%char.

(** [glue c d]: read one after the other, [c] and [d] are taken together
    by the scan: an escape, the start of a reference, or two characters
    of one name. *)
Definition glue (c d : ascii) : bool :=
  ((c =? "\")%char && ((d =? "$")%char || (d =? "~")%char))
  || ((c =? "$")%char && ((d =? "{")%char || isalpha d || (d =? "_")%char))
  || (name_char c && name_char d).

(** [seam pre rest]: nothing at the end of [pre] is taken together with
    the start of [rest]. *)
Definition seam (pre rest : list ascii) : bool :=
  match last pre with
  | Some c => negb (glue c (at_ rest 0))
  | None => true
  end.

(** [braces_closed p]: each [${] of [p] has its [}] in [p]. *)
Fixpoint braces_closed (p : list ascii) : bool :=
  match p with
  | [] => true
  | c :: r =>
      (if (c =? "$")%char && (at_ r 0 =? "{")%char
       then bool_decide ("}" ∈ drop 1 r) else true)
      && braces_closed r
  end.

(** [bare_name name post]: followed by [post], [name] is the NAME of a
    [$NAME]: it starts with a letter or an underscore, goes on with
    letters, digits and underscores, and [post] does not go on with one. *)
Definition bare_name (name post : list ascii) : Prop :=
  match name with
  | [] => False
  | c :: n =>
      (isalpha c || (c =? "_")%char) = true
      /\ Forall (fun d => name_char d = true) n
      /\ name_char (at_ post 0) = false
  end.

(** [brace_name getenv name]: [name] can stand between [${] and the
    first [}]: any characters but [}].  The empty name is one that
    [getenv] does not bind, there being no variable of that name. *)
Definition brace_name (getenv : list ascii -> option (list ascii)) (name : list ascii) : Prop :=
  cstring name /\ ("}" ∉ name) /\ (name <> [] \/ getenv [] = None).

(** Neither [$] nor [~] nor a backslash. *)
Definition plain_char (c : ascii) : Prop := c <> "$" /\ c <> "~" /\ c <> "\".

(** ** Directories *)

(** [struct stat], the fields the file reads. *)
Record stat_buf : Type := { st_uid : Z; st_mode : Z }.

(** A system call made, with what it returned: for [mkdir], [None] is
    success and [Some e] is [-1] with [errno] set to [e]. *)
Inductive syscall : Type :=
  | Mkdir (p : list ascii) (mode : Z) (r : option Z)
  | Stat (p : list ascii) (r : Z + stat_buf)
  | Getuid (r : Z)
  | Access (p : list ascii) (r : bool).

(** [printf] conversions. *)
Definition fmt_d (n : Z) : list ascii := cs (NilZero.string_of_int (Z.to_int n)).

Definition octal_digit (n : Z) : ascii := ascii_of_nat (48 + Z.to_nat (n mod 8)).

(** ["%03o"] of a value below [01000]. *)
Definition fmt_03o (n : Z) : list ascii :=
  [octal_digit (n / 64); octal_digit (n / 8); octal_digit n].

Section OS.

(** The state of the operating system, and the system calls the file
    makes.  [sys_access p w] is [access(p, F_OK) == 0]. *)
Variable world : Type.
Variable EEXIST : Z.
Variable strerror : Z -> list ascii.
Variable sys_mkdir : list ascii -> Z -> world -> option Z * world.
Variable sys_stat : list ascii -> world -> Z + stat_buf.
Variable sys_getuid : world -> Z.
Variable sys_access : list ascii -> world -> bool.

(** Code that makes system calls: the world and the calls made so far
    are threaded through. *)
Definition sys (A : Type) : Type := world * list syscall -> A * (world * list syscall).

#[local] Instance sys_ret : MRet sys := fun _ a st => (a, st).
#[local] Instance sys_bind : MBind sys := fun _ _ k m st =>
  let '(a, st') := m st in k a st'.

Definition call_mkdir (p : list ascii) (mode : Z) : sys (option Z) :=
  fun '(w, t) =>
    let '(r, w') := sys_mkdir (c_str p) mode w in
    (r, (w', t ++ [Mkdir (c_str p) mode r])).

Definition call_stat (p : list ascii) : sys (Z + stat_buf) :=
  fun '(w, t) => (sys_stat (c_str p) w, (w, t ++ [Stat (c_str p) (sys_stat (c_str p) w)])).

Definition call_getuid : sys Z :=
  fun '(w, t) => (sys_getuid w, (w, t ++ [Getuid (sys_getuid w)])).

Definition call_access (p : list ascii) : sys bool :=
  fun '(w, t) => (sys_access (c_str p) w, (w, t ++ [Access (c_str p) (sys_access (c_str p) w)])).

(** The messages, as [dupprintf] builds them. *)
Definition msg_mkdir (p : list ascii) (errno : Z) : list ascii :=
  c_str p ++ cs ": mkdir: " ++ c_str (strerror errno).
Definition msg_stat (p : list ascii) (errno : Z) : list ascii :=
  c_str p ++ cs ": stat: " ++ c_str (strerror errno).
Definition msg_not_ours (p : list ascii) (uid : Z) : list ascii :=
  c_str p ++ cs ": directory owned by uid " ++ fmt_d uid ++ cs ", not by us".
Definition msg_overgenerous (p : list ascii) (mode : Z) : list ascii :=
  c_str p ++ cs ": directory has overgenerous permissions "
    ++ fmt_03o (Z.land mode 511) ++ cs " (expected 700)".

(** The part of [make_dir_and_check_ours] after the [mkdir]. *)
Definition check_ours (dirname : list ascii) : sys (option (list ascii)) :=
  st ← call_stat dirname;
  match st with
  | inl errno => mret (Some (msg_stat dirname errno))
  | inr st =>
      uid ← call_getuid;
      if negb (st_uid st =? uid)%Z then mret (Some (msg_not_ours dirname (st_uid st)))
      else if negb (Z.land (st_mode st) 63 =? 0)%Z
           then mret (Some (msg_overgenerous dirname (st_mode st)))
           else mret None
  end.

(** [None] is the null result; [448] is [0700] and [63] is [077]. *)
Definition make_dir_and_check_ours (dirname : list ascii) : sys (option (list ascii)) :=
  r ← call_mkdir dirname 448;
  match r with
  | Some errno =>
      if negb (errno =? EEXIST)%Z then mret (Some (msg_mkdir dirname errno))
      else check_ours dirname
  | None => check_ours dirname
  end.

(** The [while (1)] of [make_dir_path], entered with [pos]. *)
Fixpoint make_dir_path_loop (fuel : nat) (path : list ascii) (mode : Z) (pos : nat)
  : sys (result (option (list ascii))) :=
  match fuel with
  | 0 => mret (Fault OutOfFuel)
  | S fuel' =>
      let pos := pos + strcspn (drop pos path) "/" in
      failed ←
        (if decide (0 < pos) then
           let prefix := dup_prec pos path in
           r ← call_mkdir prefix mode;
           match r with
           | Some errno =>
               if negb (errno =? EEXIST)%Z then mret (Some (msg_mkdir prefix errno))
               else mret None
           | None => mret None
           end
         else mret None);
      match failed with
      | Some ret => mret (Ok (Some ret))
      | None =>
          if (at_ path pos =? NUL)%char then mret (Ok None)
          else make_dir_path_loop fuel' path mode (pos + strspn (drop pos path) "/")
      end
  end.

Definition make_dir_path (path : list ascii) (mode : Z) : sys (result (option (list ascii))) :=
  make_dir_path_loop (S (length path)) path mode 0.

(** The value is null ([None]), the empty string, or a message; [511]
    is [0777]. *)
Definition mkdir_path (fn : Filename) : sys (result (option (list ascii))) :=
  match strrchr (path fn) "/" with
  | Some pos =>
      let folderpath := dup_prec pos (path fn) in
      call_access folderpath ≫= fun found : bool =>
      if found then mret (Ok (Some (dupstr [])))
      else make_dir_path folderpath 511
  | None => mret (Ok (Some (dupstr [])))
  end.

(** *** The chain of directories, as the specification words it

    [prefixes_from done rest] lists, shortest first, the non-empty
    prefixes of [done ++ rest] that extend [done] and stop where a
    component stops: before a slash that follows a character other
    than a slash, or at the end of the path. *)
Fixpoint prefixes_from (done rest : list ascii) : list (list ascii) :=
  match rest with
  | [] => if decide (done = []) then [] else [done]
  | c :: r =>
      (if (c =? "/")%char && bool_decide (done <> [] /\ last done <> Some "/")
       then [done] else [])
      ++ prefixes_from (done ++ [c]) r
  end.

Definition slash_prefixes (path : list ascii) : list (list ascii) :=
  prefixes_from [] path.

(** Create each directory in turn: one that exists already is passed
    over, any other failure stops the chain with its message. *)
Fixpoint ensure_dir_chain (dirs : list (list ascii)) (mode : Z) : sys (option (list ascii)) :=
  match dirs with
  | [] => mret None
  | d :: dirs' =>
      r ← call_mkdir d mode;
      match r with
      | Some errno =>
          if negb (errno =? EEXIST)%Z then mret (Some (msg_mkdir d errno))
          else ensure_dir_chain dirs' mode
      | None => ensure_dir_chain dirs' mode
      end
  end.

(** What is assumed of [mkdir] for two calls in a row: a directory
    made or found there is there, stays there, and is found there the
    next time. *)
Definition mkdir_laws (present : world -> list ascii -> Prop) : Prop :=
  (forall p mode w r w',
     sys_mkdir p mode w = (r, w') -> r = None \/ r = Some EEXIST -> present w' p)
  /\ (forall p q mode w r w', sys_mkdir q mode w = (r, w') -> present w p -> present w' p)
  /\ (forall p mode w, present w p -> exists w', sys_mkdir p mode w = (Some EEXIST, w')).

End OS.

(** ** An environment and an operating system to run the code on *)

(** The environment [HOME=/h], [FOO=bar]. *)
Definition demo_env (name : list ascii) : option (list ascii) :=
  if decide (name = cs "HOME") then Some (cs "/h")
  else if decide (name = cs "FOO") then Some (cs "bar")
  else None.

Definition demo_junk (k : nat) : ascii := "#".


(** A small operating system to run the routines on: the directories
    that exist, each with its owner and mode; [17] is its [EEXIST],
    [2] its [ENOENT]. *)
Definition demo_world : Type := list (list ascii * stat_buf).

Definition demo_find (p : list ascii) (w : demo_world) : option stat_buf :=
  snd <$> find (fun e => bool_decide (fst e = p)) w.

Definition demo_uid : Z := 1000.

Definition demo_mkdir (p : list ascii) (mode : Z) (w : demo_world) : option Z * demo_world :=
  match demo_find p w with
  | Some _ => (Some 17%Z, w)
  | None =>
      if decide (p = []) then (Some 2%Z, w)
      else (None, (p, {| st_uid := demo_uid; st_mode := 16384 + mode |}) :: w)
  end.

Definition demo_stat (p : list ascii) (w : demo_world) : Z + stat_buf :=
  match demo_find p w with
  | Some sb => inr sb
  | None => inl 2%Z
  end.

Definition demo_getuid (w : demo_world) : Z := demo_uid.

Definition demo_access (p : list ascii) (w : demo_world) : bool :=
  bool_decide (is_Some (demo_find p w)).

Definition demo_strerror (errno : Z) : list ascii :=
  if (errno =? 17)%Z then cs "File exists"
  else if (errno =? 2)%Z then cs "No such file or directory"
  else cs "Unknown error".

(** What exists in [w]. *)
Definition demo_present (w : demo_world) (p : list ascii) : Prop :=
  is_Some (demo_find p w).

(** ** The rest of the file names, and the font specifications *)

Definition filename_copy (fn : Filename) : Filename := filename_from_str (path fn).

Definition filename_to_str (fn : Filename) : list ascii := path fn.

(** [!fn->path[0]]. *)
Definition filename_is_null (fn : Filename) : bool := (at_ (path fn) 0 =? NUL)%char.

Definition filename_char_sanitise (c : ascii) : ascii :=
  if (c =? "/")%char then "." else c.

Record FontSpec : Type := { name : list ascii }.

Definition fontspec_new (str : list ascii) : FontSpec := {| name := dupstr str |}.

Definition fontspec_copy (f : FontSpec) : FontSpec := fontspec_new (name f).

(** As [filename_serialise]: the value is [len + 1], with the block at
    [data] after the call. *)
Definition fontspec_serialise (f : FontSpec) (data : option (list ascii))
  : result (nat * option (list ascii)) :=
  let len := strlen (name f) in
  match data with
  | Some data => d ← strcpy data (name f); Ok (len + 1, Some d)
  | None => Ok (len + 1, None)
  end.

(** [None] is the null result; otherwise the font specification and the
    value stored in [*used]. *)
Definition fontspec_deserialise (vdata : list ascii) (maxsize : nat)
  : result (option (FontSpec * nat)) :=
  e ← memchr vdata NUL maxsize;
  match e with
  | None => Ok None
  | Some end_ => Ok (Some (fontspec_new vdata, end_ + 1))
  end.

(** ** [ConvertV70LogFileToV71] *)

(** [c == '$' || c == '~']. *)
Definition needs_escape (c : ascii) : bool := (c =? "$")%char || (c =? "~")%char.

(** The first loop, [for (...; fp->path[i]; i++) if (...) j++], entered
    with [i] and [j] and [p] the bytes from [fp->path + i] on: the values
    of [i] and [j] it ends with. *)
Fixpoint convert_count (p : list ascii) (i j : nat) : nat * nat :=
  match p with
  | [] => (i, j)
  | c :: r =>
      if (c =? NUL)%char then (i, j)
      else convert_count r (S i) (if needs_escape c then S j else j)
  end.

(** The second loop, likewise, with the block at [newpath]. *)
Fixpoint convert_fill (p : list ascii) (i j : nat) (newpath : list ascii)
  : result (nat * nat * list ascii) :=
  match p with
  | [] => Ok (i, j, newpath)
  | c :: r =>
      if (c =? NUL)%char then Ok (i, j, newpath)
      else
        '(j, newpath) ←
          (if needs_escape c
           then b ← store newpath (i + j) "\"; Ok (S j, b)
           else Ok (j, newpath));
        b ← store newpath (i + j) c;
        convert_fill r (S i) j b
  end.

Section Convert.

Variable heap_junk : nat -> ascii.

(** The file name the function returns is [fp] itself, whose [path] is
    the new block when one was made. *)
Definition ConvertV70LogFileToV71 (fp : Filename) : result Filename :=
  let '(i, j) := convert_count (path fp) 0 0 in
  if decide (j <> 0) then
    let newpath := smalloc heap_junk (j + i + 1) in
    '(i, j, newpath) ← convert_fill (path fp) 0 0 newpath;
    newpath ← store newpath (i + j + 1) NUL;
    Ok {| path := newpath |}
  else Ok fp.

End Convert.

(** The text with a backslash put before each [$] and [~]. *)
Definition escaped (p : list ascii) : list ascii :=
  flat_map (fun c => if needs_escape c then ["\"; c] else [c]) p.

(** ** Descriptor flags and the user name

    Descriptors, flags and uids are the [int]s of the source, in [Z]:
    on them [|], [&] and [~] are [Z.lor], [Z.land] and [Z.lnot], which
    are the operations of two's complement at any width.  The strings
    that [getlogin] and [getpwuid] hand out are taken as values: the
    calls made after them are assumed to leave that storage alone. *)

(** [fcntl] as the file calls it: the two reads take no third argument. *)
Inductive fcntl_op : Type :=
  | F_GETFD
  | F_SETFD (arg : Z)
  | F_GETFL
  | F_SETFL (arg : Z).

(** [struct passwd], the fields the file reads. *)
Record passwd : Type := { pw_name : list ascii; pw_uid : Z }.

(** What a run leaves behind, in order: the calls made, each with what it
    returned ([fcntl] also with the [errno] it left), and the lines written
    to standard error. *)
Inductive event : Type :=
  | EvFcntl (fd : Z) (op : fcntl_op) (ret errno : Z)
  | EvStderr (line : list ascii)
  | EvGetuid (r : Z)
  | EvGetlogin (r : option (list ascii))
  | EvSetpwent
  | EvGetpwnam (name : list ascii) (r : option passwd)
  | EvGetpwuid (uid : Z) (r : option passwd)
  | EvEndpwent.

(** A call either returns or ends the process through [exit]. *)
Inductive outcome (A : Type) : Type :=
  | Returns (a : A)
  | Exits (status : Z).
Arguments Returns {A} a.
Arguments Exits {A} status.

Section Process.

(** [sys_fcntl fd op w] is the value [fcntl] returns, the [errno] it
    leaves, and the world after it. *)
Variable world : Type.
Variables FD_CLOEXEC O_NONBLOCK : Z.
Variable strerror : Z -> list ascii.
Variable sys_fcntl : Z -> fcntl_op -> world -> Z * Z * world.
Variable sys_getuid : world -> Z.
Variable sys_getlogin : world -> option (list ascii) * world.
Variable sys_setpwent : world -> world.
Variable sys_getpwnam : list ascii -> world -> option passwd * world.
Variable sys_getpwuid : Z -> world -> option passwd * world.
Variable sys_endpwent : world -> world.

Definition proc (A : Type) : Type :=
  world * list event -> outcome A * (world * list event).

#[local] Instance proc_ret : MRet proc := fun _ a st => (Returns a, st).
#[local] Instance proc_bind : MBind proc := fun _ _ k m st =>
  match m st with
  | (Returns a, st') => k a st'
  | (Exits s, st') => (Exits s, st')
  end.

Definition exit {A : Type} (status : Z) : proc A := fun st => (Exits status, st).

Definition call_fcntl (fd : Z) (op : fcntl_op) : proc (Z * Z) :=
  fun '(w, t) =>
    let '(ret, errno, w') := sys_fcntl fd op w in
    (Returns (ret, errno), (w', t ++ [EvFcntl fd op ret errno])).

Definition fputs_stderr (line : list ascii) : proc unit :=
  fun '(w, t) => (Returns tt, (w, t ++ [EvStderr line])).

(** ["%d: fcntl(<what>): %s\n"]. *)
Definition msg_fcntl (fd : Z) (what : string) (errno : Z) : list ascii :=
  fmt_d fd ++ cs ": fcntl(" ++ cs what ++ cs "): " ++ c_str (strerror errno) ++ ["010"].

Definition die {A : Type} (fd : Z) (what : string) (errno : Z) : proc A :=
  _ ← fputs_stderr (msg_fcntl fd what errno); exit 1.

Definition cloexec (fd : Z) : proc unit :=
  call_fcntl fd F_GETFD ≫= fun '(fdflags, errno) =>
  if (fdflags <? 0)%Z then die fd "F_GETFD" errno
  else
    call_fcntl fd (F_SETFD (Z.lor fdflags FD_CLOEXEC)) ≫= fun '(r, errno) =>
    if (r <? 0)%Z then die fd "F_SETFD" errno
    else mret tt.

Definition noncloexec (fd : Z) : proc unit :=
  call_fcntl fd F_GETFD ≫= fun '(fdflags, errno) =>
  if (fdflags <? 0)%Z then die fd "F_GETFD" errno
  else
    call_fcntl fd (F_SETFD (Z.land fdflags (Z.lnot FD_CLOEXEC))) ≫= fun '(r, errno) =>
    if (r <? 0)%Z then die fd "F_SETFD" errno
    else mret tt.

Definition nonblock (fd : Z) : proc Z :=
  call_fcntl fd F_GETFL ≫= fun '(fdflags, errno) =>
  if (fdflags <? 0)%Z then die fd "F_GETFL" errno
  else
    call_fcntl fd (F_SETFL (Z.lor fdflags O_NONBLOCK)) ≫= fun '(r, errno) =>
    if (r <? 0)%Z then die fd "F_SETFL" errno
    else mret (Z.land fdflags O_NONBLOCK).

Definition no_nonblock (fd : Z) : proc Z :=
  call_fcntl fd F_GETFL ≫= fun '(fdflags, errno) =>
  if (fdflags <? 0)%Z then die fd "F_GETFL" errno
  else
    call_fcntl fd (F_SETFL (Z.land fdflags (Z.lnot O_NONBLOCK))) ≫= fun '(r, errno) =>
    if (r <? 0)%Z then die fd "F_SETFL" errno
    else mret (Z.land fdflags O_NONBLOCK).

Definition proc_getuid : proc Z :=
  fun '(w, t) => (Returns (sys_getuid w), (w, t ++ [EvGetuid (sys_getuid w)])).
Definition call_getlogin : proc (option (list ascii)) :=
  fun '(w, t) =>
    let '(r, w') := sys_getlogin w in
    (Returns r, (w', t ++ [EvGetlogin r])).
Definition call_setpwent : proc unit :=
  fun '(w, t) => (Returns tt, (sys_setpwent w, t ++ [EvSetpwent])).
Definition call_getpwnam (name : list ascii) : proc (option passwd) :=
  fun '(w, t) =>
    let '(r, w') := sys_getpwnam (c_str name) w in
    (Returns r, (w', t ++ [EvGetpwnam (c_str name) r])).
Definition call_getpwuid (uid : Z) : proc (option passwd) :=
  fun '(w, t) =>
    let '(r, w') := sys_getpwuid uid w in
    (Returns r, (w', t ++ [EvGetpwuid uid r])).
Definition call_endpwent : proc unit :=
  fun '(w, t) => (Returns tt, (sys_endpwent w, t ++ [EvEndpwent])).

(** What the function does once [ret] is set. *)
Definition get_username_finish (ret : list ascii) : proc (option (list ascii)) :=
  _ ← call_endpwent;
  mret (Some (dupstr ret)).

(** The [else] branch: the look-up of the uid. *)
Definition get_username_by_uid (uid : Z) : proc (option (list ascii)) :=
  p ← call_getpwuid uid;
  match p with
  | None => mret None
  | Some p => get_username_finish (pw_name p)
  end.

(** [None] is the null result. *)
Definition get_username : proc (option (list ascii)) :=
  uid ← proc_getuid;
  user ← call_getlogin;
  _ ← call_setpwent;
  match user with
  | Some user =>
      p ← call_getpwnam user;
      match p with
      | Some p =>
          if (pw_uid p =? uid)%Z then get_username_finish user
          else get_username_by_uid uid
      | None => get_username_by_uid uid
      end
  | None => get_username_by_uid uid
  end.

End Process.

(** The name the messages give a call. *)
Definition op_name (op : fcntl_op) : string :=
  match op with
  | F_GETFD => "F_GETFD"
  | F_SETFD _ => "F_SETFD"
  | F_GETFL => "F_GETFL"
  | F_SETFL _ => "F_SETFL"
  end.

(** The lines written to standard error, and the values [fcntl] returned. *)
Definition stderr_lines (t : list event) : list (list ascii) :=
  omap (fun e => match e with EvStderr l => Some l | _ => None end) t.
Definition fcntl_rets (t : list event) : list Z :=
  omap (fun e => match e with EvFcntl _ _ r _ => Some r | _ => None end) t.

(** ** What the properties below are stated with *)

(** The number of [$] and [~] in a text. *)
Definition n_esc (p : list ascii) : nat :=
  length (filter (fun c => needs_escape c = true) p).

Definition is_getpwuid (e : event) : bool :=
  match e with EvGetpwuid _ _ => true | _ => false end.

(** How a run of [cloexec], [noncloexec], [nonblock] or [no_nonblock] on
    [fd] ends, [new] being what it added to the trace.  It returns after
    two calls of [fcntl] that both answered with a value that is not
    negative, and writes nothing.  Or it exits with status 1: then the
    last thing in the trace is the line written to standard error, the
    call before it is the one that answered with a negative value and
    the line names it and the text of the [errno] it left, and of the
    two calls at most made, any made before that one had not failed. *)
Definition ends_well (strerror : Z -> list ascii) {A : Type} (fd : Z)
    (o : outcome A) (new : list event) : Prop :=
  match o with
  | Returns _ =>
      stderr_lines new = [] /\ length (fcntl_rets new) = 2
      /\ Forall (fun r => 0 <= r)%Z (fcntl_rets new)
  | Exits s =>
      s = 1%Z
      /\ exists calls op ret errno,
           new = calls ++ [EvStderr (msg_fcntl strerror fd (op_name op) errno)]
           /\ last calls = Some (EvFcntl fd op ret errno) /\ (ret < 0)%Z
           /\ stderr_lines calls = []
           /\ length (fcntl_rets calls) <= 2
           /\ Forall (fun r => 0 <= r)%Z (removelast (fcntl_rets calls))
  end.

(** The [mkdir] calls of a chain over [dirs], with the answers [rets]
    they got: as many calls as there are answers. *)
Definition mkdirs (dirs : list (list ascii)) (mode : Z) (rets : list (option Z))
  : list syscall :=
  zip_with (fun r d => Mkdir d mode r) rets dirs.

(** An answer of [mkdir] after which a chain goes on. *)
Definition passed (EEXIST : Z) (r : option Z) : Prop := r = None \/ r = Some EEXIST.

(** ** Descriptors to run the code on

    One open descriptor table: the descriptor flags and the file status
    flags, the same for every descriptor that is not negative; a
    negative descriptor is refused with [errno] 9.  [FD_CLOEXEC] is 1 and
    [O_NONBLOCK] is 2048 there. *)
Definition demo_flags : Type := (Z * Z)%type.

Definition demo_fcntl (fd : Z) (op : fcntl_op) (w : demo_flags) : Z * Z * demo_flags :=
  if (fd <? 0)%Z then ((-1)%Z, 9%Z, w)
  else match op with
       | F_GETFD => (w.1, 0%Z, w)
       | F_SETFD v => (0%Z, 0%Z, (v, w.2))
       | F_GETFL => (w.2, 0%Z, w)
       | F_SETFL v => (0%Z, 0%Z, (w.1, v))
       end.

(** * Properties *)

(** ** Bytes and blocks *)

Lemma at_lookup (p : list ascii) k : at_ p k = default NUL (p !! k).
Proof. apply nth_lookup. Qed.

Lemma at_drop (p : list ascii) k m : at_ (drop k p) m = at_ p (k + m).
Proof. by rewrite !at_lookup, lookup_drop. Qed.

Lemma at_past_end (p : list ascii) k : length p <= k -> at_ p k = NUL.
Proof. intros H. rewrite at_lookup. by rewrite lookup_ge_None_2. Qed.

Lemma at_not_NUL_lt (p : list ascii) k : at_ p k <> NUL -> k < length p.
Proof.
  intros H. destruct (decide (k < length p)) as [|Hge]; [done|].
  destruct H. apply at_past_end. lia.
Qed.

Lemma drop_at (p : list ascii) k :
  at_ p k <> NUL -> drop k p = at_ p k :: drop (S k) p.
Proof.
  intros H. apply at_not_NUL_lt in H as Hlt.
  destruct (lookup_lt_is_Some_2 p k Hlt) as [c Hc].
  rewrite at_lookup, Hc. simpl. by apply drop_S.
Qed.

Lemma store_ok block k c :
  k < length block -> store block k c = Ok (take k block ++ c :: drop (S k) block).
Proof.
  intros H. unfold store. rewrite decide_True by done.
  by rewrite insert_take_drop.
Qed.

Lemma store_all_ok l : forall block k,
  k + length l <= length block ->
  store_all block k l = Ok (take k block ++ l ++ drop (k + length l) block).
Proof.
  induction l as [|c l IH]; intros block k H; simpl in *.
  - by rewrite Nat.add_0_r, take_drop.
  - rewrite store_ok by lia. simpl.
    rewrite IH by (rewrite length_app, length_take; simpl; rewrite length_drop; lia).
    f_equal.
    rewrite (take_app_ge _ _ (S k)) by (rewrite length_take; lia).
    rewrite length_take, Nat.min_l by lia.
    replace (S k - k) with 1 by lia. simpl. rewrite take_0.
    rewrite drop_app_ge by (rewrite length_take; lia).
    rewrite length_take, Nat.min_l by lia.
    replace (S (k + length l) - k) with (S (length l)) by lia. simpl.
    rewrite drop_drop, <- app_assoc. simpl.
    by rewrite Nat.add_succ_r.
Qed.

Lemma store_all_length l : forall block k b,
  store_all block k l = Ok b -> length b = length block.
Proof.
  induction l as [|c l IH]; intros block k b; simpl.
  - by intros [= ->].
  - unfold store. case_decide; simpl; [|done].
    intros Hs. apply IH in Hs. by rewrite length_insert in Hs.
Qed.

(** ** [expand_envstrings] *)
Section ExpandFacts.
Variable getenv : list ascii -> option (list ascii).
Variable heap_junk : nat -> ascii.

Local Abbreviation step := (step getenv).
Local Abbreviation body := (body getenv).
Local Abbreviation loop := (loop getenv).
Local Abbreviation output_from := (output_from getenv).
Local Abbreviation expansion := (expansion getenv).
Local Abbreviation value_of := (value_of getenv).
Local Abbreviation scan := (scan getenv).
Local Abbreviation reaches := (reaches getenv).
Local Abbreviation meets := (meets getenv).

Lemma take_written (block : list ascii) k e rest :
  k <= length block ->
  take (k + length e) (take k block ++ e ++ rest) = take k block ++ e.
Proof.
  intros H. rewrite app_assoc. apply take_app_length'.
  rewrite length_app, length_take. lia.
Qed.

Lemma emit_value_copy s i' v :
  j s + length (c_str v) < length (dest s) ->
  exists d,
    emit_value true s i' v = Ok (ScanState i' (j s + length (c_str v)) (skipnext s) d)
    /\ length d = length (dest s)
    /\ take (j s + length (c_str v)) d = take (j s) (dest s) ++ c_str v.
Proof.
  intros H. unfold emit_value, sprintf_s, strlen.
  rewrite store_all_ok by (rewrite length_app; simpl; lia). simpl.
  eexists. split; [reflexivity|]. split.
  - rewrite !length_app, length_take, length_drop. simpl. lia.
  - rewrite <- app_assoc. apply take_written. lia.
Qed.

Lemma store_copy (block : list ascii) k c :
  k < length block ->
  exists d, store block k c = Ok d /\ length d = length block
            /\ take (k + 1) d = take k block ++ [c].
Proof.
  intros H. rewrite store_ok by done. eexists. split; [reflexivity|]. split.
  - rewrite length_app, length_take. simpl. rewrite length_drop. lia.
  - apply (take_written block k [c]). lia.
Qed.

Section OneIteration.
Variables (str : list ascii) (s : scan_state) (c : ascii) (r : list ascii).
Hypothesis Hdrop : drop (i s) str = c :: r.

Lemma at_here : at_ str (i s) = c.
Proof. by rewrite <- (Nat.add_0_r (i s)), <- at_drop, Hdrop. Qed.

Lemma at_ahead m : at_ str (i s + S m) = at_ r m.
Proof. by rewrite <- at_drop, Hdrop. Qed.

Lemma drop_ahead m : drop (i s + S m) str = drop m r.
Proof. by rewrite <- drop_drop, Hdrop. Qed.

(** One iteration of the counting pass is [step]. *)
Lemma body_count e sk' n :
  step (skipnext s) c r = (e, sk', n) ->
  body false str s = Ok (ScanState (i s + n) (j s + length e) sk' (dest s)).
Proof.
  unfold body, step, emit_value, value_of, strlen.
  replace (i s + 1 + 1) with (i s + 2) by lia.
  rewrite at_here, !at_ahead, !drop_ahead, drop_0.
  destruct s as [i0 j0 sk d]; simpl.
  repeat case_match; simplify_eq/=; rewrite ?Nat.add_0_r; intros; simplify_eq/=;
    rewrite ?Nat.add_0_r; try done.
  all: try (exfalso; lia).
Qed.

(** One iteration of the copying pass is [step] too, and writes what
    it emits at [dest+j], provided there is room for it and for the
    terminator [sprintf] adds. *)
Lemma body_copy e sk' n :
  step (skipnext s) c r = (e, sk', n) ->
  j s + length e < length (dest s) ->
  exists d,
    body true str s = Ok (ScanState (i s + n) (j s + length e) sk' d)
    /\ length d = length (dest s)
    /\ take (j s + length e) d = take (j s) (dest s) ++ e.
Proof.
  unfold body, step, value_of.
  replace (i s + 1 + 1) with (i s + 2) by lia.
  rewrite at_here, !at_ahead, !drop_ahead, drop_0.
  repeat case_match; simplify_eq/=; intros; simplify_eq/=;
    rewrite ?Nat.add_0_r, ?app_nil_r in *; try (exfalso; lia).
  all: try (by exists (dest s); destruct s).
  all: try (by apply (emit_value_copy s)).
  destruct (store_copy (dest s) (j s) c) as (d & -> & ? & ?); [lia|].
  by exists d.
Qed.
End OneIteration.

Lemma pending_at_end str s :
  pending str s -> at_ str (i s) = NUL ->
  s = ScanState (i s) (j s) false (dest s).
Proof.
  intros Hp Hend. destruct s as [i0 j0 [] d]; [|done].
  destruct (Hp eq_refl) as [H|H]; cbn [i] in *; rewrite Hend in H; discriminate.
Qed.

Lemma step_sets_skipnext sk c r e n :
  step sk c r = (e, true, n) ->
  e = [] /\ n = 0 /\ (at_ r 0 = "$" \/ at_ r 0 = "~").
Proof.
  unfold step. repeat case_match; intros; simplify_eq/=.
  repeat split; try done.
  match goal with H : _ && _ = true |- _ => apply andb_prop in H as [_ H];
    apply orb_prop in H as [H|H]; apply Ascii.eqb_eq in H; auto end.
Qed.

Lemma output_from_stop fuel sk (str : list ascii) k :
  at_ str k = NUL -> output_from fuel sk (drop k str) = [].
Proof.
  intros H. destruct (drop k str) as [|c r] eqn:Hd; [by destruct fuel|].
  assert (c = NUL) as -> by (by rewrite <- H, <- (Nat.add_0_r k), <- at_drop, Hd).
  by destruct fuel.
Qed.

Lemma output_from_cons fuel sk c r e sk' n :
  c <> NUL -> step sk c r = (e, sk', n) ->
  output_from (S fuel) sk (c :: r) = e ++ output_from fuel sk' (drop n r).
Proof.
  intros Hc Hs. simpl. apply Ascii.eqb_neq in Hc. rewrite Hc, Hs. done.
Qed.

Section Passes.
Variable str : list ascii.

Lemma pending_next s c r e sk' n :
  drop (i s) str = c :: r -> step (skipnext s) c r = (e, sk', n) ->
  forall jj d, pending str (ScanState (i s + n + 1) jj sk' d).
Proof.
  intros Hd Hs jj d Hsk. simpl in *. subst sk'.
  apply step_sets_skipnext in Hs as (_ & -> & H).
  replace (i s + 0 + 1) with (i s + 1) by lia.
  by rewrite (at_ahead str s c r Hd 0).
Qed.

(** The counting pass leaves in [j] the length of the output, and
    [skipnext] clear. *)
Lemma loop_count fuel : forall s,
  length str - i s <= fuel -> pending str s ->
  exists i',
    loop fuel false str s =
    Ok (ScanState i' (j s + length (output_from fuel (skipnext s) (drop (i s) str)))
          false (dest s)).
Proof.
  induction fuel as [|fuel IH]; intros s Hfuel Hpend.
  - assert (Hend : at_ str (i s) = NUL) by (apply at_past_end; lia).
    exists (i s). cbn [loop]. rewrite Hend, (output_from_stop _ _ _ _ Hend), Nat.add_0_r.
    simpl. f_equal. by apply (pending_at_end str).
  - cbn [loop]. destruct (Ascii.eqb_spec (at_ str (i s)) NUL) as [Hend|Hgo].
    + exists (i s). rewrite (output_from_stop _ _ _ _ Hend), Nat.add_0_r.
      f_equal. by apply (pending_at_end str).
    + pose proof (drop_at _ _ Hgo) as Hd.
      destruct (step (skipnext s) (at_ str (i s)) (drop (S (i s)) str))
        as [[e sk'] n] eqn:Hs.
      rewrite (body_count _ _ _ _ Hd _ _ _ Hs).
      rewrite Hd, (output_from_cons _ _ _ _ _ _ _ Hgo Hs), length_app.
      apply at_not_NUL_lt in Hgo as Hlt.
      destruct (IH (ScanState (i s + n + 1) (j s + length e) sk' (dest s)))
        as [i' Hi']; cbn [i j skipnext dest] in *; [lia|by eapply pending_next|].
      exists i'. cbn [mbind result_bind i j skipnext dest]. rewrite Hi'.
      replace (i s + n + 1) with (i s + S n) by lia.
      by rewrite (drop_ahead _ _ _ _ Hd), Nat.add_assoc.
Qed.

(** The copying pass, started with room for the output and one more
    byte, stays inside the block, advances [j] by the same amount and
    leaves the output in the block from [j] on. *)
Lemma loop_copy fuel : forall s,
  length str - i s <= fuel -> pending str s ->
  let out := output_from fuel (skipnext s) (drop (i s) str) in
  j s + length out < length (dest s) ->
  exists i' d,
    loop fuel true str s = Ok (ScanState i' (j s + length out) false d)
    /\ length d = length (dest s)
    /\ take (j s + length out) d = take (j s) (dest s) ++ out.
Proof.
  induction fuel as [|fuel IH]; intros s Hfuel Hpend out Hroom; subst out.
  - assert (Hend : at_ str (i s) = NUL) by (apply at_past_end; lia).
    exists (i s), (dest s). cbn [loop].
    rewrite Hend, (output_from_stop _ _ _ _ Hend), Nat.add_0_r, app_nil_r.
    repeat split. simpl. f_equal. by apply (pending_at_end str).
  - cbn [loop]. destruct (Ascii.eqb_spec (at_ str (i s)) NUL) as [Hend|Hgo].
    + exists (i s), (dest s).
      rewrite (output_from_stop _ _ _ _ Hend), Nat.add_0_r, app_nil_r.
      repeat split. f_equal. by apply (pending_at_end str).
    + pose proof (drop_at _ _ Hgo) as Hd.
      destruct (step (skipnext s) (at_ str (i s)) (drop (S (i s)) str))
        as [[e sk'] n] eqn:Hs.
      rewrite Hd, (output_from_cons _ _ _ _ _ _ _ Hgo Hs), length_app in *.
      destruct (body_copy _ _ _ _ Hd _ _ _ Hs) as (d1 & -> & Hlen1 & Htake1); [lia|].
      apply at_not_NUL_lt in Hgo as Hlt.
      destruct (IH (ScanState (i s + n + 1) (j s + length e) sk' d1))
        as (i' & d & Hi' & Hlen & Htake); cbn [i j skipnext dest] in *;
        [lia|by eapply pending_next| |].
      { replace (i s + n + 1) with (i s + S n) by lia.
        rewrite (drop_ahead _ _ _ _ Hd). lia. }
      exists i', d. cbn [mbind result_bind i j skipnext dest]. rewrite Hi'.
      replace (i s + n + 1) with (i s + S n) in * by lia.
      rewrite (drop_ahead _ _ _ _ Hd) in *.
      rewrite !Nat.add_assoc. repeat split; [congruence|].
      by rewrite Htake, Htake1, app_assoc.
Qed.
End Passes.

Lemma c_str_cstring p : cstring (c_str p).
Proof.
  induction p as [|c p IH]; simpl; [constructor|].
  destruct (Ascii.eqb_spec c NUL); by constructor.
Qed.

Lemma c_str_id p : cstring p -> c_str p = p.
Proof.
  induction 1 as [|c p Hc _ IH]; simpl; [done|].
  apply Ascii.eqb_neq in Hc. by rewrite Hc, IH.
Qed.

Lemma c_str_terminated p q : cstring p -> c_str (p ++ NUL :: q) = p.
Proof.
  induction 1 as [|c p Hc _ IH]; simpl; [done|].
  apply Ascii.eqb_neq in Hc. by rewrite Hc, IH.
Qed.

Lemma step_cstring sk c r e sk' n :
  c <> NUL -> step sk c r = (e, sk', n) -> cstring e.
Proof.
  unfold step, value_of. intros Hc.
  repeat case_match; intros; simplify_eq/=;
    try apply c_str_cstring; by repeat constructor.
Qed.

Lemma output_from_cstring fuel : forall sk p, cstring (output_from fuel sk p).
Proof.
  induction fuel as [|fuel IH]; intros sk [|c r]; simpl; try by constructor.
  destruct (Ascii.eqb_spec c NUL) as [|Hc]; [by constructor|].
  destruct (step sk c r) as [[e sk'] n] eqn:Hs.
  apply Forall_app. split; [by eapply step_cstring|apply IH].
Qed.

(** *** The scan of a whole string *)

Lemma output_from_fuel fuel : forall sk p,
  length p <= fuel -> output_from fuel sk p = scan sk p.
Proof.
  induction fuel as [fuel IH] using lt_wf_ind. intros sk [|c r] Hlen.
  - by destruct fuel.
  - unfold scan. destruct fuel as [|fuel]; simpl in *; [lia|].
    destruct (Ascii.eqb_spec c NUL) as [|Hc]; [done|].
    destruct (step sk c r) as [[e sk'] n].
    assert (length (drop n r) <= length r) by (rewrite length_drop; lia).
    rewrite (IH fuel), (IH (length r)) by lia. done.
Qed.

Lemma scan_nil sk : scan sk [] = [].
Proof. done. Qed.

Lemma scan_NUL sk r : scan sk (NUL :: r) = [].
Proof. done. Qed.

Lemma scan_cons sk c r e sk' n :
  c <> NUL -> step sk c r = (e, sk', n) ->
  scan sk (c :: r) = e ++ scan sk' (drop n r).
Proof.
  intros Hc Hs. unfold scan at 1. cbn [length].
  rewrite (output_from_cons _ _ _ _ _ _ _ Hc Hs), output_from_fuel; [done|].
  rewrite length_drop. lia.
Qed.

(** *** Splitting the input at a seam *)

Lemma c_str_app p q : cstring p -> c_str (p ++ q) = p ++ c_str q.
Proof.
  induction 1 as [|c p Hc _ IH]; simpl; [done|].
  apply Ascii.eqb_neq in Hc. by rewrite Hc, IH.
Qed.

Lemma dup_prec_app n p q : cstring p -> n <= length p -> dup_prec n (p ++ q) = dup_prec n p.
Proof.
  intros Hp Hn. unfold dup_prec.
  by rewrite c_str_app, take_app_le, c_str_id.
Qed.

Lemma strchr_app q c :
  cstring q -> c ∈ q ->
  exists k, strchr q c = Some k /\ k < length q
            /\ forall rest, strchr (q ++ rest) c = Some k.
Proof.
  induction 1 as [|d q Hd _ IH]; intros Hin; [by apply elem_of_nil in Hin|].
  simpl. apply Ascii.eqb_neq in Hd. rewrite Hd.
  destruct (Ascii.eqb_spec d c) as [->|Hne].
  - exists 0. repeat split; lia.
  - apply elem_of_cons in Hin as [->|Hin]; [done|].
    destruct (IH Hin) as (k & -> & Hk & Happ). exists (S k).
    repeat split; [lia|]. intros rest. by rewrite Happ.
Qed.

Lemma name_run_le q : name_run q <= length q.
Proof. induction q as [|c q IH]; simpl; [lia|]. case_match; lia. Qed.

Lemma name_run_stop rest : name_char (at_ rest 0) = false -> name_run rest = 0.
Proof.
  destruct rest as [|c r]; [done|]. unfold name_char. cbn [at_ nth name_run].
  by intros ->.
Qed.

Lemma name_run_app l rest :
  l <> [] ->
  (forall c, last l = Some c -> name_char c = true -> name_char (at_ rest 0) = false) ->
  name_run (l ++ rest) = name_run l.
Proof.
  induction l as [|c l IH]; intros Hne Hlast; [done|].
  simpl. fold (name_char c). destruct (name_char c) eqn:Hc; [|done]. f_equal.
  destruct l as [|c' l].
  - simpl. apply name_run_stop. by apply (Hlast c).
  - apply IH; [done|]. intros c0 H0. apply Hlast. by rewrite last_cons_cons.
Qed.

Lemma glue_false c d :
  glue c d = false ->
  (c = "\" -> d <> "$" /\ d <> "~")
  /\ (c = "$" -> d <> "{" /\ isalpha d = false /\ d <> "_")
  /\ (name_char c = true -> name_char d = false).
Proof.
  unfold glue. intros H.
  apply orb_false_elim in H as [H12 H3]. apply orb_false_elim in H12 as [H1 H2].
  split; [|split].
  - intros ->. simpl in H1. apply orb_false_elim in H1 as [Ha Hb].
    by split; apply Ascii.eqb_neq.
  - intros ->. simpl in H2. apply orb_false_elim in H2 as [Hab Hc].
    apply orb_false_elim in Hab as [Ha Hb].
    by repeat split; try apply Ascii.eqb_neq.
  - intros Hc. by rewrite Hc in H3.
Qed.

Lemma braces_closed_drop n : forall p,
  braces_closed p = true -> braces_closed (drop n p) = true.
Proof.
  induction n as [|n IH]; intros [|c p] H; try done.
  simpl in *. apply andb_prop in H as [_ H]. by apply IH.
Qed.

Lemma seam_drop n p rest :
  seam p rest = true -> seam (drop n p) rest = true.
Proof.
  unfold seam. destruct (last (drop n p)) as [c|] eqn:Hl; [|done].
  apply last_Some in Hl as [l' Hl].
  assert (last p = Some c) as ->; [|done].
  rewrite <- (take_drop n p), Hl, app_assoc. apply last_snoc.
Qed.

(** What one iteration does with [c :: p] is not changed by text added
    after a seam, and stays inside [c :: p]. *)
Lemma step_app sk c p rest :
  cstring p -> braces_closed (c :: p) = true -> seam (c :: p) rest = true ->
  step sk c (p ++ rest) = step sk c p /\ (step sk c p).2 <= length p.
Proof.
  intros Hp Hclosed Hseam. destruct p as [|d q].
  - (* [c] is the last character: the text after it starts [rest] *)
    unfold seam in Hseam. simpl in Hseam. apply negb_true_iff in Hseam.
    apply glue_false in Hseam as (Hbs & Hdollar & _).
    unfold step. simpl.
    destruct (Ascii.eqb_spec c "\") as [->|_]; simpl.
    { destruct (Hbs eq_refl) as [H1%Ascii.eqb_neq H2%Ascii.eqb_neq].
      rewrite H1, H2, !andb_false_r. simpl. split; [done|lia]. }
    destruct (negb sk && (c =? "$")%char) eqn:Hb.
    { apply andb_prop in Hb as [_ ->%Ascii.eqb_eq].
      destruct (Hdollar eq_refl) as (H1%Ascii.eqb_neq & H2 & H3%Ascii.eqb_neq).
      rewrite H1, H2, H3. simpl. split; [done|lia]. }
    destruct (negb sk && (c =? "~")%char); simpl; split; done || lia.
  - (* the character after [c] is in [p] *)
    simpl in Hclosed. apply andb_prop in Hclosed as [Hbrace _].
    inversion_clear Hp as [|? ? Hd Hq].
    unfold step. simpl. rewrite !drop_0.
    change (at_ (d :: q ++ rest) 0) with d. change (at_ (d :: q) 0) with d.
    destruct ((c =? "\")%char && ((d =? "$")%char || (d =? "~")%char));
      [simpl; split; [done|lia]|].
    destruct (negb sk && (c =? "$")%char) eqn:Hb; cycle 1.
    { destruct (negb sk && (c =? "~")%char); simpl; split; done || lia. }
    apply andb_prop in Hb as [_ Hc]. rewrite Hc in Hbrace. simpl in Hbrace.
    destruct (d =? "{")%char eqn:Hd'.
    + change (at_ (d :: q) 0) with d in Hbrace.
      rewrite Hd', drop_0 in Hbrace. apply bool_decide_eq_true in Hbrace.
      destruct (strchr_app q "}" Hq Hbrace) as (k & Hk & Hlt & Happ).
      rewrite Happ, Hk, dup_prec_app by (done || lia). simpl. split; [done|lia].
    + pose proof (name_run_le q).
      destruct (isalpha d || (d =? "_")%char) eqn:Hname; [|simpl; split; [done|lia]].
      assert (Hrun : name_run (q ++ rest) = name_run q).
      { assert (name_char d = true) as Hnd.
        { unfold name_char, isalnum. apply orb_prop in Hname as [->| ->]; [done|].
          apply orb_true_r. }
        pose proof (name_run_app (d :: q) rest) as Happ. simpl in Happ.
        fold (name_char d) in Happ. rewrite Hnd in Happ.
        injection Happ; [done|done|].
        intros c0 Hl Hc0. unfold seam in Hseam. rewrite last_cons_cons, Hl in Hseam.
        apply negb_true_iff, glue_false in Hseam as (_ & _ & Hn). by apply Hn. }
      rewrite Hrun.
      rewrite (app_comm_cons q rest d).
      rewrite (dup_prec_app _ (d :: q)) by first [by constructor | simpl; lia].
      simpl. split; [done|lia].
Qed.

(** The scan of [pre ++ rest] is the scan of [pre] followed by the scan
    of [rest], when [pre] is a C string that closes its braces and ends
    at a seam. *)
Lemma scan_app pre : forall sk rest,
  cstring pre -> braces_closed pre = true -> seam pre rest = true ->
  (sk = true -> pre <> []) ->
  scan sk (pre ++ rest) = scan sk pre ++ scan false rest.
Proof.
  induction pre as [pre IH] using (induction_ltof1 _ length). unfold ltof in IH.
  intros sk rest Hpre Hclosed Hseam Hsk. destruct pre as [|c p].
  - destruct sk; [by destruct Hsk|done].
  - inversion Hpre as [|? ? Hc Hp]; subst.
    destruct (step_app sk c p rest Hp Hclosed Hseam) as [Hstep Hn].
    destruct (step sk c p) as [[e sk'] n] eqn:Hs. simpl in Hn.
    rewrite <- app_comm_cons, (scan_cons _ _ _ _ _ _ Hc Hstep), (scan_cons _ _ _ _ _ _ Hc Hs).
    rewrite drop_app_le, <- app_assoc by done. f_equal.
    apply IH.
    + simpl. rewrite length_drop. lia.
    + by apply Forall_drop.
    + apply braces_closed_drop. simpl in Hclosed. by apply andb_prop in Hclosed as [_ ?].
    + destruct (decide (drop n p = [])) as [->|Hne]; [done|].
      apply (seam_drop (S n) (c :: p)) in Hseam. done.
    + intros ->. apply step_sets_skipnext in Hs as (_ & -> & H).
      destruct p; [|done]. simpl in H. by destruct H.
Qed.

Lemma length_smalloc n : length (smalloc heap_junk n) = n.
Proof. unfold smalloc. by rewrite length_map, length_seq. Qed.

(** The block returned holds the expansion and its terminator, whatever
    the allocation held. *)
Lemma expand_envstrings_ok str :
  expand_envstrings getenv heap_junk str = Ok (expansion str ++ [NUL]).
Proof.
  unfold expand_envstrings, run_pass.
  destruct (loop_count str (length str) (ScanState 0 0 false [])) as [i0 ->];
    [simpl; lia|done|].
  cbn [mbind result_bind i j skipnext dest]. rewrite drop_0. fold (expansion str).
  destruct (loop_copy str (length str)
              (ScanState 0 0 false (smalloc heap_junk (0 + length (expansion str) + 1))))
    as (i1 & d & -> & Hlen & Htake); cbn [i j skipnext dest];
    [lia|done|rewrite drop_0, length_smalloc; fold (expansion str); lia|].
  cbn [mbind result_bind i j skipnext dest] in *.
  rewrite drop_0, length_smalloc in *. fold (expansion str) in *.
  rewrite store_ok by lia. f_equal.
  rewrite Htake, take_0. simpl. f_equal. f_equal.
  apply drop_ge. lia.
Qed.

Lemma expand_expansion str :
  expand getenv heap_junk str = Some (expansion str).
Proof.
  unfold expand. rewrite expand_envstrings_ok.
  f_equal. apply c_str_terminated, output_from_cstring.
Qed.

Lemma expansion_scan str : expansion str = scan false str.
Proof. done. Qed.

Lemma reaches_scan sk0 p0 out sk p :
  reaches sk0 p0 out sk p -> scan sk0 p0 = out ++ scan sk p.
Proof.
  induction 1 as [|out sk c r e sk' n _ IH Hc Hs]; [done|].
  by rewrite IH, (scan_cons _ _ _ _ _ _ Hc Hs), app_assoc.
Qed.

(** What the scan has come to is a tail of the input... *)
Lemma reaches_tail sk0 p0 out sk p :
  reaches sk0 p0 out sk p -> exists k, p = drop k p0.
Proof.
  induction 1 as [|out sk c r e sk' n _ [k Hk] Hc Hs]; [by exists 0|].
  exists (k + S n). by rewrite <- drop_drop, <- Hk.
Qed.

(** ... and it is the loop of the source that comes to it: the
    counting pass, entered with [i = 0] and [j = 0], comes to the test
    of an iteration with [i] at that tail, [j] the length of what was
    emitted and [skipnext] as [meets] says. *)
Lemma meets_loop str out sk rest :
  meets str out sk rest ->
  exists k m,
    rest = drop k str /\ m <= k
    /\ forall fuel d,
         m <= fuel ->
         loop fuel false str (ScanState 0 0 false d)
         = loop (fuel - m) false str (ScanState k (length out) sk d).
Proof.
  unfold meets. induction 1 as [|out sk c r e sk' n _ (k & m & Hk & Hm & IH) Hc Hs].
  - exists 0, 0. repeat split; [lia|]. intros fuel d _. by rewrite Nat.sub_0_r.
  - exists (k + n + 1), (S m). split; [|split; [lia|]].
    + replace (k + n + 1) with (k + S n) by lia. by rewrite <- drop_drop, <- Hk.
    + intros fuel d Hfuel. rewrite IH by lia.
      destruct (fuel - m) as [|fuel'] eqn:Hf; [lia|].
      replace (fuel - S m) with fuel' by lia.
      assert (Hat : at_ str k = c)
        by (by rewrite <- (Nat.add_0_r k), <- at_drop, <- Hk).
      cbn [loop i]. rewrite Hat.
      apply Ascii.eqb_neq in Hc as Hc'. rewrite Hc'.
      rewrite (body_count str (ScanState k (length out) sk d) c r (eq_sym Hk) _ _ _ Hs).
      cbn [mbind result_bind i j skipnext dest]. by rewrite length_app.
Qed.

Lemma meets_expand str out sk rest :
  meets str out sk rest ->
  expand getenv heap_junk str = Some (out ++ scan sk rest).
Proof.
  intros H. rewrite expand_expansion, expansion_scan. f_equal. by apply reaches_scan.
Qed.

(** *** What the scan does with each form *)

Lemma scan_escape sk c r :
  c = "$" \/ c = "~" -> scan sk ("\" :: c :: r) = c :: scan false r.
Proof.
  intros Hc.
  rewrite (scan_cons sk "\" (c :: r) [] true 0); [|done|].
  - rewrite drop_0. simpl.
    apply (scan_cons true c r [c] false 0); by destruct Hc as [-> | ->].
  - by destruct Hc as [-> | ->].
Qed.

Lemma scan_backslash sk r :
  at_ r 0 <> "$" -> at_ r 0 <> "~" -> scan sk ("\" :: r) = "\" :: scan false r.
Proof.
  intros H1%Ascii.eqb_neq H2%Ascii.eqb_neq.
  apply (scan_cons sk "\" r ["\"] false 0); [done|].
  unfold step. rewrite H1, H2. by destruct sk.
Qed.

Lemma scan_tilde r :
  scan false ("~" :: r) = value_of (cs "HOME") ++ scan false r.
Proof. by apply (scan_cons false "~" r _ false 0). Qed.

Lemma scan_literal sk c r :
  c <> NUL -> c <> "$" -> c <> "~" -> c <> "\" ->
  scan sk (c :: r) = c :: scan false r.
Proof.
  intros H0 H1%Ascii.eqb_neq H2%Ascii.eqb_neq H3%Ascii.eqb_neq.
  apply (scan_cons sk c r [c] false 0); [done|].
  unfold step. rewrite H1, H2, H3. by destruct sk.
Qed.

Lemma scan_lone_dollar r :
  (if (at_ r 0 =? "{")%char then strchr (drop 1 r) "}" else None) = None ->
  (isalpha (at_ r 0) || (at_ r 0 =? "_")%char) = false ->
  scan false ("$" :: r) = scan false r.
Proof.
  intros H1 H2. apply (scan_cons false "$" r [] false 0); [done|].
  unfold step. simpl. by rewrite H1, H2.
Qed.

Lemma name_char_not_NUL c : name_char c = true -> c <> NUL.
Proof. by intros H ->. Qed.

Lemma name_run_all n post :
  Forall (fun c => name_char c = true) n -> name_char (at_ post 0) = false ->
  name_run (n ++ post) = length n.
Proof.
  intros Hn Hpost. induction Hn as [|c n Hc _ IH]; simpl.
  - by apply name_run_stop.
  - fold (name_char c). by rewrite Hc, IH.
Qed.

Lemma scan_bare c n post :
  (isalpha c || (c =? "_")%char) = true ->
  Forall (fun c => name_char c = true) n ->
  name_char (at_ post 0) = false ->
  scan false ("$" :: (c :: n) ++ post) = value_of (c :: n) ++ scan false post.
Proof.
  intros Hc Hn Hpost.
  assert (Hbrace : (c =? "{")%char = false).
  { apply Ascii.eqb_neq. intros ->. discriminate. }
  assert (Hname : cstring (c :: n)).
  { constructor.
    - intros ->. discriminate.
    - eapply Forall_impl; [exact Hn|]. apply name_char_not_NUL. }
  rewrite (scan_cons false "$" ((c :: n) ++ post) (value_of (c :: n)) false (1 + length n));
    [|done|].
  - by rewrite (drop_app_length' (c :: n)).
  - unfold step. cbn [negb andb Ascii.eqb]. simpl.
    change (at_ (c :: n ++ post) 0) with c. rewrite Hbrace, Hc, drop_0.
    rewrite (name_run_all n post Hn Hpost).
    rewrite (app_comm_cons n post c), dup_prec_app by done.
    unfold dup_prec. by rewrite c_str_id, take_ge.
Qed.

Lemma strchr_found name c post :
  cstring name -> c ∉ name -> c <> NUL ->
  strchr (name ++ c :: post) c = Some (length name).
Proof.
  intros Hn. induction Hn as [|d n Hd _ IH]; intros Hnot Hc; simpl.
  - apply Ascii.eqb_neq in Hc. by rewrite Hc, Ascii.eqb_refl.
  - apply not_elem_of_cons in Hnot as [Hne Hnot].
    apply Ascii.eqb_neq in Hd. rewrite Hd.
    destruct (Ascii.eqb_spec d c) as [->|_]; [done|]. by rewrite IH.
Qed.

Lemma scan_brace name post :
  cstring name -> "}" ∉ name ->
  scan false ("$" :: "{" :: name ++ "}" :: post)
  = (if decide (name = []) then [] else value_of name) ++ scan false post.
Proof.
  intros Hn Hnot.
  rewrite (scan_cons false "$" ("{" :: name ++ "}" :: post)
             (if decide (name = []) then [] else value_of name) false (length name + 2));
    [|done|].
  - f_equal. f_equal. replace (length name + 2) with (S (S (length name))) by lia.
    simpl. change ("}" :: post) with (["}"] ++ post).
    rewrite app_assoc. apply drop_app_length'. rewrite length_app. simpl. lia.
  - unfold step. simpl. rewrite drop_0, strchr_found by done.
    rewrite dup_prec_app by done. unfold dup_prec. rewrite c_str_id, take_ge by done.
    by destruct name.
Qed.

Local Abbreviation expand := (expand getenv heap_junk).

Lemma seam_unescaped pre d r :
  last pre <> Some "\"%char -> d = "$" \/ d = "~" -> seam pre (d :: r) = true.
Proof.
  intros Hlast Hd. unfold seam. destruct (last pre) as [c|]; [|done].
  change (at_ (d :: r) 0) with d. apply negb_true_iff. unfold glue.
  destruct (Ascii.eqb_spec c "\") as [->|_]; [done|].
  destruct Hd as [-> | ->]; cbn; by rewrite !andb_false_r.
Qed.

Lemma seam_backslash pre r : seam pre ("\" :: r) = true.
Proof.
  unfold seam. destruct (last pre) as [c|]; [|done].
  apply negb_true_iff. unfold glue. cbn. by rewrite !andb_false_r.
Qed.


(** C8.  On a string with no [$], no [~] and no backslash, expansion is
    the identity. *)
Theorem expand_plain_identity (s : list ascii) :
  cstring s -> Forall plain_char s -> expand s = Some s.
Proof.
  intros HS Hplain. rewrite expand_expansion, expansion_scan. f_equal.
  induction HS as [|c r Hc _ IH]; [done|].
  inversion_clear Hplain as [|? ? (H1 & H2 & H3) Hr].
  rewrite scan_literal by done. f_equal. by apply IH.
Qed.



Lemma value_of_brace name :
  name <> [] \/ getenv [] = None ->
  (if decide (name = []) then [] else value_of name) = value_of name.
Proof.
  intros Hempty. case_decide as Hnil; [|done]. subst name.
  destruct Hempty as [|Hnone]; [done|]. unfold value_of. by rewrite Hnone.
Qed.


(** C1.  What the code does with a [$] that starts no reference, where
    the specification has the [$] copied: wherever the scan meets one,
    nothing is emitted for it and the scan goes on after it.  A lone
    trailing [$] gives the empty string, [$1abc] gives [1abc] and
    [${FOO] gives [{FOO], in every environment. *)
Theorem lone_dollar_dropped :
  (forall str out r,
     meets str out false ("$" :: r) ->
     (if (at_ r 0 =? "{")%char then strchr (drop 1 r) "}" else None) = None ->
     (isalpha (at_ r 0) || (at_ r 0 =? "_")%char) = false ->
     exists o2, expand r = Some o2 /\ expand str = Some (out ++ o2))
  /\ expand (cs "$") = Some (cs "")
  /\ expand (cs "$1abc") = Some (cs "1abc")
  /\ expand (cs "${FOO") = Some (cs "{FOO").
Proof.
  split; [|by rewrite !expand_expansion].
  intros str out r Hmeets H1 H2. exists (expansion r).
  rewrite (meets_expand _ _ _ _ Hmeets), expand_expansion, expansion_scan.
  by rewrite scan_lone_dollar.
Qed.

End ExpandFacts.

(** *** The expansion in the example environment *)

Lemma demo_prefix_ok :
  cstring (cs "a~b") /\ braces_closed (cs "a~b") = true
  /\ last (cs "a~b") <> Some "\"%char.
Proof. repeat split; [repeat constructor; discriminate|discriminate]. Qed.

Lemma expand_plain_identity_witness :
  cstring (cs "putty.log") /\ Forall plain_char (cs "putty.log")
  /\ expand demo_env demo_junk (cs "putty.log") = Some (cs "putty.log").
Proof.
  assert (H1 : cstring (cs "putty.log")) by (repeat constructor; discriminate).
  assert (H2 : Forall plain_char (cs "putty.log")) by (repeat constructor; discriminate).
  split; [exact H1|]. split; [exact H2|].
  exact (expand_plain_identity demo_env demo_junk _ H1 H2).
Defined.

(** After a leading [a], the scan meets what follows. *)
Lemma demo_meets rest : meets demo_env ("a"%char :: rest) (cs "a") false rest.
Proof.
  exact (reaches_step demo_env false ("a"%char :: rest) [] false "a" rest
           ["a"%char] false 0 (reaches_start _ _ _) ltac:(discriminate) eq_refl).
Qed.




(** The cases the specification lists. *)
Example expand_empty getenv junk : expand getenv junk (cs "") = Some (cs "").
Proof. by rewrite expand_expansion. Qed.

Example expand_HOME getenv junk :
  getenv (cs "HOME") = Some (cs "/home/u") ->
  expand getenv junk (cs "$HOME") = Some (cs "/home/u").
Proof.
  intros H. rewrite expand_expansion. vm_compute in H. vm_compute. by rewrite H.
Qed.

(** ** File names *)

Lemma memchr_found p q n :
  cstring p -> length p < n -> memchr (p ++ NUL :: q) NUL n = Ok (Some (length p)).
Proof.
  intros Hp. revert n. induction Hp as [|c p Hc _ IH]; intros n Hn.
  - destruct n; [simpl in *; lia|done].
  - destruct n as [|n]; [simpl in *; lia|]. simpl in *.
    apply Ascii.eqb_neq in Hc. rewrite Hc, IH by lia. done.
Qed.

Lemma memchr_none data : forall n,
  n <= length data ->
  (memchr data NUL n = Ok None <-> NUL ∉ take n data).
Proof.
  induction data as [|d r IH]; intros [|n] Hn; simpl in *; try lia.
  - split; [intros _; apply not_elem_of_nil|done].
  - split; [intros _; apply not_elem_of_nil|done].
  - destruct (Ascii.eqb_spec d NUL) as [->|Hd].
    + split; [done|]. intros H. destruct H. apply elem_of_cons. by left.
    + specialize (IH n ltac:(lia)).
      destruct (memchr r NUL n) as [[k|]|f]; simpl.
      * split; [done|]. intros H. exfalso.
        assert (NUL ∉ take n r) as H' by (intros ?; apply H, elem_of_cons; by right).
        apply IH in H'. done.
      * split; [|done]. intros _ [?|?]%elem_of_cons; [done|]. by apply IH.
      * split; [done|]. intros H. exfalso.
        assert (NUL ∉ take n r) as H' by (intros ?; apply H, elem_of_cons; by right).
        apply IH in H'. done.
Qed.

(** C10.  A file name serialised into a buffer of [maxsize] bytes, with
    [maxsize] at least the length [filename_serialise] reports for a null
    buffer, is read back by [filename_deserialise]: the result is not
    null, its path is the path serialised, and [*used] is the serialised
    length [strlen(path) + 1].  On any block of at least [maxsize] bytes,
    [filename_deserialise] returns null exactly when there is no NUL
    among the first [maxsize] bytes. *)
Theorem filename_roundtrip :
  (forall (f : Filename) (buf : list ascii) (len maxsize : nat),
     filename_serialise f None = Ok (len, None) ->
     length buf = maxsize -> len <= maxsize ->
     exists buf' f',
       filename_serialise f (Some buf) = Ok (len, Some buf')
       /\ filename_deserialise buf' maxsize = Ok (Some (f', len))
       /\ len = strlen (path f) + 1
       /\ path f' = c_str (path f)
       /\ filename_equal f' f = true)
  /\ (forall (data : list ascii) (maxsize : nat),
        maxsize <= length data ->
        (filename_deserialise data maxsize = Ok None <-> NUL ∉ take maxsize data)).
Proof.
  split.
  - intros f buf len maxsize Hlen <- Hcap. unfold filename_serialise in *.
    injection Hlen as <-. unfold strcpy, strlen in *.
    rewrite store_all_ok by (rewrite length_app; simpl; lia).
    rewrite take_0, length_app. simpl.
    set (rest := drop _ buf).
    exists (c_str (path f) ++ NUL :: rest), (filename_from_str (c_str (path f) ++ NUL :: rest)).
    assert (Hlen' : length (c_str (path f) ++ NUL :: rest) = length buf).
    { subst rest. rewrite length_app. simpl. rewrite length_drop. lia. }
    repeat split.
    + by rewrite <- app_assoc.
    + unfold filename_deserialise.
      rewrite memchr_found by (apply c_str_cstring || lia). done.
    + simpl. unfold dupstr. by rewrite c_str_terminated by apply c_str_cstring.
    + unfold filename_equal. simpl. unfold dupstr.
      rewrite c_str_terminated by apply c_str_cstring.
      rewrite (c_str_id (c_str _)) by apply c_str_cstring.
      by apply bool_decide_eq_true.
  - intros data maxsize Hmax. unfold filename_deserialise.
    rewrite <- (memchr_none data maxsize Hmax).
    destruct (memchr data NUL maxsize) as [[k|]|]; simpl; split; done.
Qed.

Lemma filename_roundtrip_witness :
  filename_serialise (filename_from_str (cs "/etc/hosts")) None = Ok (11, None)
  /\ length (replicate 16 "#"%char) = 16 /\ 11 <= 16
  /\ (exists buf' f',
        filename_serialise (filename_from_str (cs "/etc/hosts"))
          (Some (replicate 16 "#"%char)) = Ok (11, Some buf')
        /\ filename_deserialise buf' 16 = Ok (Some (f', 11))
        /\ 11 = strlen (path (filename_from_str (cs "/etc/hosts"))) + 1
        /\ path f' = c_str (path (filename_from_str (cs "/etc/hosts")))
        /\ filename_equal f' (filename_from_str (cs "/etc/hosts")) = true)
  /\ 2 <= length (cs "abc")
  /\ (filename_deserialise (cs "abc") 2 = Ok None <-> NUL ∉ take 2 (cs "abc")).
Proof.
  assert (H1 : 11 <= 16) by lia.
  assert (H2 : 2 <= length (cs "abc")) by (simpl; lia).
  split; [reflexivity|]. split; [reflexivity|]. split; [exact H1|].
  split; [|split; [exact H2|]].
  - exact (proj1 filename_roundtrip (filename_from_str (cs "/etc/hosts"))
             (replicate 16 "#"%char) 11 16 eq_refl eq_refl H1).
  - exact (proj2 filename_roundtrip (cs "abc") 2 H2).
Defined.

(** ** Directories *)

Section OSFacts.
Variable world : Type.
Variable EEXIST : Z.
Variable strerror : Z -> list ascii.
Variable sys_mkdir : list ascii -> Z -> world -> option Z * world.
Variable sys_stat : list ascii -> world -> Z + stat_buf.
Variable sys_getuid : world -> Z.
Variable sys_access : list ascii -> world -> bool.

Local Abbreviation sys := (sys world).
Local Abbreviation call_mkdir := (call_mkdir world sys_mkdir).
Local Abbreviation msg_mkdir := (msg_mkdir strerror).
Local Abbreviation ensure_dir_chain := (ensure_dir_chain world EEXIST strerror sys_mkdir).
Local Abbreviation make_dir_path_loop := (make_dir_path_loop world EEXIST strerror sys_mkdir).
Local Abbreviation make_dir_path := (make_dir_path world EEXIST strerror sys_mkdir).
Local Abbreviation mkdir_path := (mkdir_path world EEXIST strerror sys_mkdir sys_access).
Local Abbreviation mkdir_laws := (mkdir_laws world EEXIST sys_mkdir).
Local Abbreviation make_dir_and_check_ours :=
  (make_dir_and_check_ours world EEXIST strerror sys_mkdir sys_stat sys_getuid).

Ltac run_sys :=
  repeat progress
    (unfold mbind, mret, sys_bind, sys_ret,
       call_mkdir, call_stat, call_getuid, call_access; cbn).

(** *** [make_dir_path] *)

Lemma strcspn_split rest :
  cstring rest ->
  exists run rest1,
    rest = run ++ rest1 /\ strcspn rest "/" = length run
    /\ Forall (fun c => c <> "/") run
    /\ (rest1 = [] \/ exists r2, rest1 = "/" :: r2).
Proof.
  induction 1 as [|c r Hc _ (run & rest1 & -> & Hn & Hrun & Hrest)].
  - exists [], []. repeat split; auto.
  - simpl. apply Ascii.eqb_neq in Hc. rewrite Hc. simpl.
    destruct (Ascii.eqb_spec c "/") as [->|Hne].
    + exists [], ("/" :: run ++ rest1). repeat split; eauto.
    + exists (c :: run), rest1. rewrite Hn. repeat split; auto.
Qed.

Lemma strspn_split rest1 :
  exists sl rest2,
    rest1 = sl ++ rest2 /\ strspn rest1 "/" = length sl
    /\ Forall (fun c => c = "/") sl /\ at_ rest2 0 <> "/".
Proof.
  induction rest1 as [|c r (sl & rest2 & -> & Hn & Hsl & Hrest)].
  - exists [], []. by repeat split; auto.
  - simpl. destruct (Ascii.eqb_spec c "/") as [->|Hne]; simpl.
    + exists ("/" :: sl), rest2. rewrite Hn. repeat split; auto.
    + exists [], (c :: sl ++ rest2). repeat split; auto.
Qed.

Lemma prefixes_from_run run : forall done rest,
  Forall (fun c => c <> "/") run ->
  prefixes_from done (run ++ rest) = prefixes_from (done ++ run) rest.
Proof.
  induction run as [|c run IH]; intros done rest Hrun.
  - by rewrite app_nil_r.
  - inversion_clear Hrun as [|? ? Hc Hrun']. simpl.
    apply Ascii.eqb_neq in Hc. rewrite Hc. simpl.
    rewrite IH by done. by rewrite <- app_assoc.
Qed.

Lemma prefixes_from_slashes sl : forall done rest,
  Forall (fun c => c = "/") sl ->
  done = [] \/ last done = Some "/" ->
  prefixes_from done (sl ++ rest) = prefixes_from (done ++ sl) rest.
Proof.
  induction sl as [|c sl IH]; intros done rest Hsl Hdone.
  - by rewrite app_nil_r.
  - inversion_clear Hsl as [|? ? -> Hsl']. simpl.
    rewrite bool_decide_eq_false_2 by (intros [? ?]; by destruct Hdone).
    simpl. rewrite IH; [by rewrite <- app_assoc|done|].
    right. apply last_snoc.
Qed.

(** What [prefixes_from] lists: the non-empty [done ++ take k rest]
    that stop at the end of the path, or before a slash and not on a
    slash. *)
Lemma prefixes_from_spec rest : forall done p,
  p ∈ prefixes_from done rest <->
  exists k, k <= length rest /\ p = done ++ take k rest /\ p <> []
            /\ (k = length rest \/ (at_ rest k = "/" /\ last p <> Some "/")).
Proof.
  induction rest as [|c r IH]; intros done p.
  - cbn [prefixes_from]. split.
    + case_decide as Hd; [by intros ?%elem_of_nil|]. intros ->%list_elem_of_singleton.
      exists 0. rewrite app_nil_r. auto.
    + intros (k & Hk & -> & Hne & _). rewrite take_nil, app_nil_r in *.
      rewrite decide_False by done. by apply list_elem_of_singleton.
  - cbn [prefixes_from]. rewrite elem_of_app, IH. split.
    + intros [Hhere|(k & Hk & -> & Hne & Hend)].
      * destruct (Ascii.eqb_spec c "/") as [->|]; [|by apply elem_of_nil in Hhere].
        case_bool_decide as Hd; [|by apply elem_of_nil in Hhere].
        apply list_elem_of_singleton in Hhere as ->. destruct Hd as [Hne Hlast].
        exists 0. rewrite take_0, app_nil_r. repeat split; auto with lia.
      * exists (S k). cbn [length take]. rewrite <- app_assoc in *.
        repeat split; auto with lia.
        destruct Hend as [->|Hend]; auto.
    + intros ([|k] & Hk & -> & Hne & Hend).
      * left. rewrite take_0, app_nil_r in *.
        destruct Hend as [Hend|[Hc Hlast]]; [done|]. cbn in Hc. subst c. cbn.
        rewrite bool_decide_eq_true_2 by done. by apply list_elem_of_singleton.
      * right. exists k. cbn [length take] in *. rewrite <- app_assoc.
        repeat split; auto with lia.
        destruct Hend as [Hend|Hend]; auto with lia.
Qed.

(** The prefixes of a path at which a directory is created. *)
Lemma slash_prefixes_spec path p :
  p ∈ slash_prefixes path <->
  exists k, k <= length path /\ p = take k path /\ p <> []
            /\ (k = length path \/ (at_ path k = "/" /\ last p <> Some "/")).
Proof. apply prefixes_from_spec. Qed.

(** They are listed shortest first. *)
Lemma prefixes_from_sorted rest : forall done,
  StronglySorted (fun p q => length p < length q) (prefixes_from done rest)
  /\ Forall (fun p => length done <= length p) (prefixes_from done rest).
Proof.
  induction rest as [|c r IH]; intros done; cbn [prefixes_from].
  - case_decide; split; repeat constructor.
  - destruct (IH (done ++ [c])) as [Hsorted Hlong].
    assert (Hlonger : Forall (fun p => length done < length p)
                        (prefixes_from (done ++ [c]) r)).
    { eapply Forall_impl; [exact Hlong|]. intros p. rewrite length_app. simpl. lia. }
    destruct ((c =? "/")%char && _); cbn [app]; split.
    + by constructor.
    + constructor; [done|]. eapply Forall_impl; [exact Hlonger|]. intros p. cbn. lia.
    + done.
    + eapply Forall_impl; [exact Hlonger|]. intros p. cbn. lia.
Qed.

Lemma slash_prefixes_sorted path :
  StronglySorted (fun p q => length p < length q) (slash_prefixes path).
Proof. apply prefixes_from_sorted. Qed.

(** From the start of a component on, the loop creates the chain of
    the prefixes that remain. *)
Lemma make_dir_path_loop_chain mode fuel : forall done rest st,
  cstring (done ++ rest) ->
  done = [] \/ (last done = Some "/" /\ at_ rest 0 <> "/") ->
  length rest < fuel ->
  make_dir_path_loop fuel (done ++ rest) mode (length done) st
  = (let '(r, st') := ensure_dir_chain (prefixes_from done rest) mode st in (Ok r, st')).
Proof.
  induction fuel as [|fuel IH]; intros done rest st Hpath Hentry Hfuel; [lia|].
  apply Forall_app in Hpath as Hboth. destruct Hboth as [Hdone Hrest].
  destruct (strcspn_split rest Hrest) as (run & rest1 & -> & Hn & Hrun & Hrest1).
  cbn [make_dir_path_loop]. rewrite drop_app_length, Hn.
  rewrite prefixes_from_run by done.
  assert (Hprefix : dup_prec (length done + length run) (done ++ run ++ rest1) = done ++ run).
  { unfold dup_prec. rewrite c_str_id by done.
    rewrite app_assoc. apply take_app_length'. by rewrite length_app. }
  assert (Hat : at_ (done ++ run ++ rest1) (length done + length run) = at_ rest1 0).
  { rewrite app_assoc, <- (Nat.add_0_r (length done + _)), <- at_drop.
    by rewrite drop_app_length' by (by rewrite length_app). }
  assert (Hdrop : drop (length done + length run) (done ++ run ++ rest1) = rest1).
  { rewrite app_assoc. apply drop_app_length'. by rewrite length_app. }
  rewrite Hprefix, Hat, Hdrop.
  assert (Hcs : c_str (done ++ run) = done ++ run).
  { apply c_str_id. rewrite app_assoc in Hpath. by apply Forall_app in Hpath as [? _]. }
  destruct Hrest1 as [->|[r2 ->]].
  - (* the path ends here *)
    cbn [prefixes_from].
    destruct (decide (done ++ run = [])) as [Hnil|Hne].
    + rewrite decide_False by (apply app_eq_nil in Hnil as [-> ->]; simpl; lia).
      by destruct st.
    + rewrite decide_True by (destruct done, run; simpl in *; done || lia).
      destruct st as [w t]. run_sys. rewrite Hcs.
      destruct (sys_mkdir (done ++ run) mode w) as [[errno|] w']; cbn.
      2:{ done. }
      by destruct (errno =? EEXIST)%Z.
  - (* a slash follows *)
    destruct (strspn_split ("/" :: r2)) as (sl & rest2 & Hsplit & Hm & Hsl & Hrest2).
    rewrite Hm. clear Hm.
    destruct sl as [|c sl]; [simpl in Hsplit; by rewrite <- Hsplit in Hrest2|].
    inversion Hsl as [|? ? Hc Hsl']; subst c. clear Hsl.
    injection Hsplit as ->.
    set (done' := (done ++ run) ++ "/" :: sl).
    assert (Hpath' : done ++ run ++ "/" :: sl ++ rest2 = done' ++ rest2).
    { subst done'. by rewrite <- !app_assoc. }
    assert (Hlen' : length done + length run + length ("/" :: sl) = length done').
    { subst done'. by rewrite !length_app. }
    assert (Hlast' : last done' = Some "/").
    { subst done'. destruct sl as [|c sl _] using rev_ind.
      - apply last_snoc.
      - apply Forall_app in Hsl' as [_ Hc]. inversion_clear Hc. subst.
        rewrite app_comm_cons, app_assoc. apply last_snoc. }
    assert (Hnext : forall st1,
      make_dir_path_loop fuel (done ++ run ++ "/" :: sl ++ rest2) mode
        (length done + length run + length ("/" :: sl)) st1
      = (let '(r, st') := ensure_dir_chain (prefixes_from done' rest2) mode st1 in
         (Ok r, st'))).
    { intros st1. rewrite Hpath', Hlen'. apply IH.
      - by rewrite <- Hpath'.
      - by right.
      - rewrite !length_app in Hfuel. simpl in Hfuel. rewrite length_app in Hfuel. lia. }
    assert (Hchain : prefixes_from ((done ++ run) ++ ["/"]) (sl ++ rest2)
                     = prefixes_from done' rest2).
    { rewrite prefixes_from_slashes by (done || right; apply last_snoc).
      subst done'. by rewrite <- !app_assoc. }
    cbn [prefixes_from Ascii.eqb Bool.eqb andb]. rewrite Hchain.
    destruct (decide (0 < length done + length run)) as [Hpos|Hzero].
    + (* a component, or the slashes after one, was read *)
      assert (Hemit : done ++ run <> [] /\ last (done ++ run) <> Some "/").
      { split; [destruct done, run; simpl in *; done || lia|].
        destruct run as [|c run _] using rev_ind.
        - rewrite app_nil_r. destruct Hentry as [->|[_ Hslash]]; [simpl in *; lia|].
          by destruct Hslash.
        - apply Forall_app in Hrun as [_ Hc]. inversion_clear Hc.
          rewrite app_assoc, last_snoc. congruence. }
      rewrite bool_decide_eq_true_2 by done.
      destruct st as [w t]. run_sys. rewrite Hcs.
      destruct (sys_mkdir (done ++ run) mode w) as [[errno|] w']; cbn.
      * destruct (errno =? EEXIST)%Z; cbn; [|done]. apply Hnext.
      * apply Hnext.
    + (* the path starts with a slash *)
      assert (done ++ run = []) as Hnil
        by (destruct done, run; simpl in *; done || lia).
      rewrite bool_decide_eq_false_2 by (by intros [? _]).
      destruct st as [w t]. run_sys. apply Hnext.
Qed.

Lemma ensure_dir_chain_message dirs mode : forall st msg st',
  ensure_dir_chain dirs mode st = (Some msg, st') ->
  exists d errno, msg = msg_mkdir d errno.
Proof.
  induction dirs as [|d dirs IH]; intros [w t] msg st'; [done|].
  run_sys. destruct (sys_mkdir (c_str d) mode w) as [[errno|] w']; cbn; [|apply IH].
  destruct (errno =? EEXIST)%Z; cbn; [apply IH|]. intros [= <- <-]. eauto.
Qed.

Lemma msg_mkdir_not_empty d errno : msg_mkdir d errno <> [].
Proof. unfold msg_mkdir. by destruct (c_str d). Qed.

Section Twice.
Variable present : world -> list ascii -> Prop.
Hypothesis laws : mkdir_laws present.

Lemma chain_keeps dirs mode p : forall w t r w1 t1,
  ensure_dir_chain dirs mode (w, t) = (r, (w1, t1)) -> present w p -> present w1 p.
Proof.
  destruct laws as (_ & Hkeep & _).
  induction dirs as [|d dirs IH]; intros w t r w1 t1; [by intros [= _ <- _]|].
  run_sys. destruct (sys_mkdir (c_str d) mode w) as [[errno|] w'] eqn:Hmk; cbn.
  - destruct (errno =? EEXIST)%Z; cbn.
    + intros H Hp. eapply IH; [exact H|]. eapply Hkeep; [exact Hmk|done].
    + intros [= _ <- _] Hp. eapply Hkeep; [exact Hmk|done].
  - intros H Hp. eapply IH; [exact H|]. eapply Hkeep; [exact Hmk|done].
Qed.

Lemma chain_creates dirs mode : forall w t w1 t1,
  ensure_dir_chain dirs mode (w, t) = (None, (w1, t1)) ->
  Forall (fun d => present w1 (c_str d)) dirs.
Proof.
  destruct laws as (Hmade & _ & _).
  induction dirs as [|d dirs IH]; intros w t w1 t1; [by constructor|].
  run_sys. destruct (sys_mkdir (c_str d) mode w) as [[errno|] w'] eqn:Hmk; cbn.
  - destruct (Z.eqb_spec errno EEXIST) as [->|Hne]; cbn; [|done].
    intros H. constructor; [|by eapply IH].
    eapply chain_keeps; [exact H|]. eapply Hmade; [exact Hmk|auto].
  - intros H. constructor; [|by eapply IH].
    eapply chain_keeps; [exact H|]. eapply Hmade; [exact Hmk|auto].
Qed.

Lemma chain_again dirs mode : forall w t,
  Forall (fun d => present w (c_str d)) dirs ->
  exists w1 t1, ensure_dir_chain dirs mode (w, t) = (None, (w1, t1)).
Proof.
  destruct laws as (_ & Hkeep & Hfound).
  induction dirs as [|d dirs IH]; intros w t Hall; [by eexists _, _|].
  inversion_clear Hall as [|? ? Hd Hdirs].
  destruct (Hfound _ mode _ Hd) as [w' Hmk].
  run_sys. rewrite Hmk. cbn. rewrite Z.eqb_refl. cbn.
  apply IH. eapply Forall_impl; [exact Hdirs|].
  intros p Hp. eapply Hkeep; [exact Hmk|done].
Qed.
End Twice.

Lemma make_dir_path_is_chain path mode st :
  cstring path ->
  make_dir_path path mode st
  = (let '(r, st') := ensure_dir_chain (slash_prefixes path) mode st in (Ok r, st')).
Proof.
  intros Hpath. apply (make_dir_path_loop_chain mode (S (length path)) [] path); auto.
Qed.


(** *** [mkdir_path] *)

Lemma strrchr_none p c : c ∉ p -> strrchr p c = None.
Proof.
  induction p as [|d p IH]; intros Hnot; [done|].
  apply not_elem_of_cons in Hnot as [Hne Hnot]. simpl. rewrite IH by done.
  destruct (d =? NUL)%char; [done|].
  destruct (Ascii.eqb_spec d c); [by subst|done].
Qed.

Lemma strrchr_last parent file c :
  cstring parent -> c <> NUL -> c ∉ file ->
  strrchr (parent ++ c :: file) c = Some (length parent).
Proof.
  intros Hp Hc Hfile. induction Hp as [|d p Hd _ IH]; simpl.
  - apply Ascii.eqb_neq in Hc. by rewrite Hc, strrchr_none, Ascii.eqb_refl.
  - apply Ascii.eqb_neq in Hd. by rewrite Hd, IH.
Qed.

(** C7.  [mkdir_path] returns the empty string, its "nothing to do"
    marker, without any [mkdir] when the path has no slash (no system
    call is made) and when [access] finds the text before the last slash
    (the only call made); otherwise it is [make_dir_path] on that text
    with mode [0777], whose result is null or a message, never the
    marker. *)
Theorem mkdir_path_cases (fn : Filename) (w : world) (t : list syscall) :
  cstring (path fn) ->
  ("/" ∉ path fn -> mkdir_path fn (w, t) = (Ok (Some []), (w, t)))
  /\ (forall parent file,
        path fn = parent ++ "/" :: file -> "/" ∉ file ->
        let found := sys_access parent w in
        let st1 := (w, t ++ [Access parent found]) in
        (found = true -> mkdir_path fn (w, t) = (Ok (Some []), st1))
        /\ (found = false -> mkdir_path fn (w, t) = make_dir_path parent 511 st1)
        /\ (make_dir_path parent 511 st1).1 <> Ok (Some [])).
Proof.
  intros Hpath. split.
  - intros Hnot. unfold mkdir_path. by rewrite strrchr_none.
  - intros parent file Hsplit Hfile found st1.
    rewrite Hsplit in Hpath. apply Forall_app in Hpath as Hboth. destruct Hboth as [Hparent _].
    assert (Hprefix : dup_prec (length parent) (path fn) = parent).
    { unfold dup_prec. rewrite Hsplit, c_str_id by done. apply take_app_length. }
    assert (Hmarker : (make_dir_path parent 511 st1).1 <> Ok (Some [])).
    { rewrite make_dir_path_is_chain by done.
      destruct (ensure_dir_chain _ _ _) as [[msg|] st'] eqn:Hchain; cbn; [|done].
      apply ensure_dir_chain_message in Hchain as (d & errno & ->).
      intros [= H]. by apply msg_mkdir_not_empty in H. }
    split; [|split; [|exact Hmarker]]; clear Hmarker; subst st1 found.
    + intros Hfound. unfold mkdir_path.
      rewrite Hsplit, strrchr_last by done. rewrite <- Hsplit, Hprefix.
      unfold mbind, sys_bind, call_access. rewrite c_str_id by done.
      by rewrite Hfound.
    + intros Hfound. unfold mkdir_path.
      rewrite Hsplit, strrchr_last by done. rewrite <- Hsplit, Hprefix.
      unfold mbind, sys_bind, call_access. rewrite c_str_id by done.
      by rewrite Hfound.
Qed.

(** *** [make_dir_and_check_ours] *)

Lemma messages_differ p uid mode :
  msg_not_ours p uid <> msg_overgenerous p mode.
Proof.
  unfold msg_not_ours, msg_overgenerous. intros H.
  apply app_inv_head in H. discriminate.
Qed.

End OSFacts.

(** *** The routines on the example operating system *)

Lemma demo_mkdir_laws : mkdir_laws demo_world 17 demo_mkdir demo_present.
Proof.
  unfold mkdir_laws, demo_present, demo_mkdir. repeat split.
  - intros p mode w r w' H Hr. destruct (demo_find p w) as [sb|] eqn:Hf.
    + injection H as <- <-. by rewrite Hf.
    + destruct (decide (p = [])); [injection H as <- <-; by destruct Hr|].
      injection H as <- <-. unfold demo_find. cbn.
      by rewrite bool_decide_eq_true_2.
  - intros p q mode w r w' H Hp. destruct (demo_find q w) as [sb|] eqn:Hf.
    + by injection H as <- <-.
    + destruct (decide (q = [])); injection H as <- <-; [done|].
      unfold demo_find in *. cbn. by case_bool_decide.
  - intros p mode w [sb Hsb]. rewrite Hsb. by exists w.
Qed.

Example slash_prefixes_nested :
  slash_prefixes (cs "/a/b/c") = [cs "/a"; cs "/a/b"; cs "/a/b/c"].
Proof. reflexivity. Qed.

Example slash_prefixes_doubled :
  slash_prefixes (cs "a//b/") = [cs "a"; cs "a//b"; cs "a//b/"].
Proof. reflexivity. Qed.


Lemma mkdir_path_cases_witness :
  cstring (cs "file") /\ "/"%char ∉ cs "file"
  /\ mkdir_path demo_world 17 demo_strerror demo_mkdir demo_access
       {| path := cs "file" |} ([], [])
     = (Ok (Some []), ([], []))
  /\ cstring (cs "/a/b/file")
  /\ mkdir_path demo_world 17 demo_strerror demo_mkdir demo_access
       {| path := cs "/a/b/file" |} ([], [])
     = make_dir_path demo_world 17 demo_strerror demo_mkdir (cs "/a/b") 511
         ([], [Access (cs "/a/b") false])
  /\ (make_dir_path demo_world 17 demo_strerror demo_mkdir (cs "/a/b") 511
        ([], [Access (cs "/a/b") false])).1 <> Ok (Some []).
Proof.
  assert (H0 : cstring (cs "file")) by (repeat constructor; discriminate).
  assert (H1 : cstring (cs "/a/b/file")) by (repeat constructor; discriminate).
  assert (H2 : "/"%char ∉ cs "file").
  { intros Hin. repeat (apply elem_of_cons in Hin as [Hin|Hin]; [discriminate|]).
    by apply elem_of_nil in Hin. }
  split; [exact H0|]. split; [exact H2|].
  split; [exact (proj1 (mkdir_path_cases demo_world 17 demo_strerror demo_mkdir
                          demo_access {| path := cs "file" |} [] [] H0) H2)|].
  split; [exact H1|].
  destruct (proj2 (mkdir_path_cases demo_world 17 demo_strerror demo_mkdir demo_access
                     {| path := cs "/a/b/file" |} [] [] H1)
              (cs "/a/b") (cs "file") eq_refl H2) as (_ & Hcreate & Hmarker).
  split; [exact (Hcreate eq_refl)|exact Hmarker].
Defined.


(** * Further properties *)

(** ** File names and font specifications, continued *)

Lemma c_str_c_str p : c_str (c_str p) = c_str p.
Proof. apply c_str_id, c_str_cstring. Qed.

Lemma at_c_str_0 p : at_ (c_str p) 0 = at_ p 0.
Proof.
  destruct p as [|c r]; [done|]. simpl.
  by destruct (Ascii.eqb_spec c NUL) as [->|].
Qed.

Lemma at_0_NUL p : at_ p 0 = NUL <-> c_str p = [].
Proof.
  destruct p as [|c r]; [done|]. cbn.
  destruct (Ascii.eqb_spec c NUL); split; done.
Qed.

(** X1.  [filename_copy] gives a file name equal to the original by
    [filename_equal], holding the C string of its path, and null by
    [filename_is_null] exactly when the original is; and a file name is
    null exactly when it is equal to the one made from the empty
    string. *)
Theorem filename_copy_faithful (fn : Filename) :
  filename_equal (filename_copy fn) fn = true
  /\ filename_to_str (filename_copy fn) = c_str (filename_to_str fn)
  /\ filename_is_null (filename_copy fn) = filename_is_null fn
  /\ (filename_is_null fn = true <-> filename_equal fn (filename_from_str []) = true).
Proof.
  unfold filename_equal, filename_copy, filename_from_str, filename_is_null,
    filename_to_str, dupstr. cbn [path]. repeat split.
  - apply bool_decide_eq_true. apply c_str_c_str.
  - by rewrite at_c_str_0.
  - intros H%Ascii.eqb_eq%at_0_NUL. by apply bool_decide_eq_true.
  - intros H%bool_decide_eq_true. apply Ascii.eqb_eq, at_0_NUL. by rewrite H.
Qed.

Lemma memchr_Some data : forall n k,
  memchr data NUL n = Ok (Some k) ->
  k < n /\ exists p q, data = p ++ NUL :: q /\ cstring p /\ length p = k.
Proof.
  induction data as [|d r IH]; intros [|n] k; cbn; try done.
  destruct (Ascii.eqb_spec d NUL) as [->|Hd].
  - intros [= <-]. split; [lia|]. exists [], r. repeat split. constructor.
  - destruct (memchr r NUL n) as [[k'|]|] eqn:Hm; cbn; try done.
    intros [= <-]. destruct (IH n k' Hm) as (Hk & p & q & -> & Hp & Hlen).
    split; [lia|]. exists (d :: p), q. repeat split; [by constructor|].
    simpl. by rewrite Hlen.
Qed.

Lemma strcpy_ok buf src :
  strlen src + 1 <= length buf ->
  strcpy buf src = Ok (c_str src ++ NUL :: drop (strlen src + 1) buf).
Proof.
  intros H. unfold strcpy, strlen in *.
  rewrite store_all_ok by (rewrite length_app; simpl; lia).
  by rewrite take_0, length_app, <- app_assoc.
Qed.

(** X2.  Decoding then encoding: when [filename_deserialise] reads a
    file name out of [data], using [used] bytes, then [used] is at most
    the size given, [filename_serialise] announces [used] bytes for that
    file name, and on any block of at least [used] bytes it writes back
    the first [used] bytes of [data] and leaves the rest of the block
    alone. *)
Theorem filename_reserialise (data : list ascii) (maxsize : nat)
    (f : Filename) (used : nat) :
  filename_deserialise data maxsize = Ok (Some (f, used)) ->
  used <= maxsize
  /\ filename_serialise f None = Ok (used, None)
  /\ forall buf, used <= length buf ->
       exists buf',
         filename_serialise f (Some buf) = Ok (used, Some buf')
         /\ take used buf' = take used data
         /\ drop used buf' = drop used buf.
Proof.
  unfold filename_deserialise.
  destruct (memchr data NUL maxsize) as [[k|]|] eqn:Hm; cbn; try done.
  intros [= <- <-].
  destruct (memchr_Some _ _ _ Hm) as (Hk & p & q & -> & Hp & <-).
  unfold filename_serialise, filename_from_str, dupstr, strlen. cbn [path].
  rewrite c_str_terminated, c_str_id by done.
  split; [lia|]. split; [done|]. intros buf Hbuf.
  rewrite strcpy_ok by (unfold strlen; rewrite c_str_id by done; lia).
  unfold strlen. rewrite c_str_id by done. cbn.
  eexists. split; [reflexivity|].
  change (NUL :: drop (length p + 1) buf) with ([NUL] ++ drop (length p + 1) buf).
  change (NUL :: q) with ([NUL] ++ q).
  rewrite !app_assoc.
  assert (Hl : length (p ++ [NUL]) = length p + 1) by (rewrite length_app; simpl; lia).
  split.
  - by rewrite !take_app_length'.
  - by rewrite drop_app_length'.
Qed.

(** X3.  Font specifications make the round trip as file names do.
    Written by [fontspec_serialise] into a block that is large enough and
    read back by [fontspec_deserialise], a font specification comes back
    with the C string of its name, the one [fontspec_copy] gives, and
    with the length announced, [strlen + 1], consumed.  The decoder
    answers null exactly when there is no NUL among the [maxsize] bytes.
    And what it reads is encoded again to the bytes it was read from. *)
Theorem fontspec_roundtrip :
  (forall (f : FontSpec) (buf : list ascii) (len maxsize : nat),
     fontspec_serialise f None = Ok (len, None) ->
     length buf = maxsize -> len <= maxsize ->
     exists buf' f',
       fontspec_serialise f (Some buf) = Ok (len, Some buf')
       /\ fontspec_deserialise buf' maxsize = Ok (Some (f', len))
       /\ len = strlen (name f) + 1
       /\ name f' = c_str (name f)
       /\ name (fontspec_copy f) = name f')
  /\ (forall (data : list ascii) (maxsize : nat),
        maxsize <= length data ->
        (fontspec_deserialise data maxsize = Ok None <-> NUL ∉ take maxsize data))
  /\ (forall data maxsize f used,
        fontspec_deserialise data maxsize = Ok (Some (f, used)) ->
        used <= maxsize
        /\ fontspec_serialise f None = Ok (used, None)
        /\ forall buf, used <= length buf ->
             exists buf',
               fontspec_serialise f (Some buf) = Ok (used, Some buf')
               /\ take used buf' = take used data).
Proof.
  split; [|split].
  - intros f buf len maxsize Hlen <- Hcap. unfold fontspec_serialise in *.
    injection Hlen as <-.
    rewrite strcpy_ok by done. cbn.
    eexists _, _. split; [reflexivity|]. unfold fontspec_deserialise.
    rewrite memchr_found by (apply c_str_cstring || (unfold strlen in Hcap; lia)).
    cbn. unfold fontspec_copy, fontspec_new, dupstr. cbn [name].
    by rewrite c_str_terminated by apply c_str_cstring.
  - intros data maxsize Hmax. unfold fontspec_deserialise.
    rewrite <- (memchr_none data maxsize Hmax).
    destruct (memchr data NUL maxsize) as [[k|]|]; simpl; split; done.
  - intros data maxsize f used. unfold fontspec_deserialise.
    destruct (memchr data NUL maxsize) as [[k|]|] eqn:Hm; cbn; try done.
    intros [= <- <-].
    destruct (memchr_Some _ _ _ Hm) as (Hk & p & q & -> & Hp & <-).
    unfold fontspec_serialise, fontspec_new, dupstr, strlen. cbn [name].
    rewrite c_str_terminated, c_str_id by done.
    split; [lia|]. split; [done|]. intros buf Hbuf.
    rewrite strcpy_ok by (unfold strlen; rewrite c_str_id by done; lia).
    unfold strlen. rewrite c_str_id by done. cbn.
    eexists. split; [reflexivity|].
    change (NUL :: drop (length p + 1) buf) with ([NUL] ++ drop (length p + 1) buf).
    change (NUL :: q) with ([NUL] ++ q).
    rewrite !app_assoc.
    assert (Hl : length (p ++ [NUL]) = length p + 1) by (rewrite length_app; simpl; lia).
    by rewrite !take_app_length'.
Qed.

Lemma filename_reserialise_witness :
  filename_deserialise (cs "ab" ++ [NUL; "x"]) 4 = Ok (Some ({| path := cs "ab" |}, 3))
  /\ filename_serialise {| path := cs "ab" |} None = Ok (3, None).
Proof.
  assert (H : filename_deserialise (cs "ab" ++ [NUL; "x"]) 4
              = Ok (Some ({| path := cs "ab" |}, 3))) by reflexivity.
  split; [exact H|].
  exact (proj1 (proj2 (filename_reserialise _ _ _ _ H))).
Defined.

Lemma fontspec_roundtrip_witness :
  exists buf',
    fontspec_serialise {| name := cs "fixed" |} (Some (cs "0123456789")) = Ok (6, Some buf')
    /\ exists f', fontspec_deserialise buf' 10 = Ok (Some (f', 6))
                  /\ name f' = cs "fixed".
Proof.
  destruct (proj1 fontspec_roundtrip {| name := cs "fixed" |} (cs "0123456789") 6 10
              eq_refl eq_refl) as (buf' & f' & H1 & H2 & _ & H3 & _).
  { cbn. lia. }
  exists buf'. split; [exact H1|]. exists f'. split; [exact H2|exact H3].
Defined.

(** ** The log file name conversion *)

Lemma length_escaped p : length (escaped p) = length p + n_esc p.
Proof.
  unfold n_esc. induction p as [|c r IH]; [done|].
  cbn [escaped flat_map]. rewrite length_app. fold (escaped r). rewrite IH.
  rewrite filter_cons. destruct (needs_escape c) eqn:E.
  - rewrite decide_True by done. simpl. lia.
  - rewrite decide_False by done. simpl. lia.
Qed.

Lemma convert_count_spec p : forall i j,
  convert_count p i j = (i + strlen p, j + n_esc (c_str p)).
Proof.
  unfold strlen, n_esc.
  induction p as [|c r IH]; intros i j; cbn [convert_count c_str].
  - simpl. f_equal; lia.
  - destruct (Ascii.eqb_spec c NUL) as [->|Hc]; [simpl; f_equal; lia|].
    rewrite IH, filter_cons. destruct (needs_escape c) eqn:E.
    + rewrite decide_True by done. simpl. f_equal; lia.
    + rewrite decide_False by done. simpl. f_equal; lia.
Qed.

Lemma store_here pre d t k c :
  k = length pre -> store (pre ++ d :: t) k c = Ok (pre ++ c :: t).
Proof.
  intros ->. rewrite store_ok by (rewrite length_app; simpl; lia).
  rewrite take_app_length. f_equal. f_equal. f_equal.
  change (S (length pre)) with (1 + length pre).
  rewrite Nat.add_comm, <- drop_drop, drop_app_length. done.
Qed.

Lemma convert_fill_spec p : forall i j pre rest,
  length pre = i + j ->
  length (escaped (c_str p)) <= length rest ->
  convert_fill p i j (pre ++ rest) =
    Ok (i + strlen p, j + n_esc (c_str p),
        pre ++ escaped (c_str p) ++ drop (length (escaped (c_str p))) rest).
Proof.
  unfold strlen, n_esc.
  induction p as [|c r IH]; intros i j pre rest Hpre; cbn [convert_fill c_str].
  - intros _. cbn. by rewrite !Nat.add_0_r, drop_0.
  - destruct (Ascii.eqb_spec c NUL) as [->|Hc].
    { intros _. cbn. by rewrite !Nat.add_0_r, drop_0. }
    cbn [escaped flat_map]. fold (escaped (c_str r)).
    rewrite filter_cons.
    destruct (needs_escape c) eqn:E; intros Hb.
    + rewrite decide_True by done. cbn [length app] in *.
      destruct rest as [|d1 [|d2 rest]]; cbn [length] in Hb; try lia.
      rewrite (store_here pre) by done. cbn [mbind result_bind].
      change (pre ++ "\" :: d2 :: rest) with (pre ++ ["\"] ++ d2 :: rest).
      rewrite app_assoc.
      rewrite (store_here (pre ++ ["\"])) by (rewrite length_app; simpl; lia).
      cbn [mbind result_bind].
      change ((pre ++ ["\"]) ++ c :: rest) with ((pre ++ ["\"]) ++ [c] ++ rest).
      rewrite app_assoc, IH.
      * rewrite <- !app_assoc. cbn [app drop]. do 2 f_equal. f_equal; lia.
      * rewrite !length_app. simpl. lia.
      * lia.
    + rewrite decide_False by done. cbn [length app] in *.
      destruct rest as [|d1 rest]; cbn [length] in Hb; try lia.
      cbn [mbind result_bind].
      rewrite (store_here pre) by done. cbn [mbind result_bind].
      change (pre ++ c :: rest) with (pre ++ [c] ++ rest).
      rewrite app_assoc, IH.
      * rewrite <- !app_assoc. cbn [app drop]. do 2 f_equal. f_equal; lia.
      * rewrite !length_app. simpl. lia.
      * lia.
Qed.

Lemma n_esc_0 p : n_esc p = 0 <-> Forall (fun c => needs_escape c = false) p.
Proof.
  unfold n_esc. induction p as [|c r IH]; [by split; [constructor|]|].
  rewrite filter_cons, Forall_cons. destruct (needs_escape c).
  - rewrite decide_True by done. simpl. split; [lia|]. by intros [? _].
  - rewrite decide_False by done. rewrite IH. tauto.
Qed.

Lemma smalloc_S junk n : smalloc junk (S n) = smalloc junk n ++ [junk n].
Proof. unfold smalloc. by rewrite seq_S, map_app. Qed.

Lemma convert_fill_smalloc junk p :
  convert_fill p 0 0 (smalloc junk (n_esc (c_str p) + strlen p + 1)) =
    Ok (strlen p, n_esc (c_str p),
        escaped (c_str p) ++ [junk (strlen p + n_esc (c_str p))]).
Proof.
  pose proof (length_escaped (c_str p)) as Hlen. fold (strlen p) in Hlen.
  pose proof (convert_fill_spec p 0 0 [] (smalloc junk (n_esc (c_str p) + strlen p + 1))) as H.
  rewrite length_smalloc in H. cbn [app] in H. rewrite H by (done || lia).
  cbn [Nat.add]. do 3 f_equal.
  rewrite Nat.add_1_r, smalloc_S, (Nat.add_comm (n_esc _)), <- Hlen.
  rewrite drop_app_length'; [done|]. by rewrite length_smalloc.
Qed.


(** X5.  On a path with a [$] or a [~], the first loop ends with the
    length [i] of the path and the number [j] of such characters, the
    block has [j + i + 1] bytes, and the second loop fills its first
    [i + j] bytes with the path, a backslash put before each [$] and [~];
    byte [i + j], the last of the block, is left as allocated.  The
    store of the terminator is then at offset [i + j + 1], one past the
    end of the block: the function writes outside it. *)
Theorem convert_terminator_out_of_block (heap_junk : nat -> ascii) (fp : Filename) :
  Exists (fun c => c = "$" \/ c = "~") (c_str (path fp)) ->
  exists i j,
    convert_count (path fp) 0 0 = (i, j)
    /\ i = strlen (path fp) /\ 0 < j
    /\ length (escaped (c_str (path fp))) = i + j
    /\ convert_fill (path fp) 0 0 (smalloc heap_junk (j + i + 1))
       = Ok (i, j, escaped (c_str (path fp)) ++ [heap_junk (i + j)])
    /\ store (escaped (c_str (path fp)) ++ [heap_junk (i + j)]) (i + j + 1) NUL
       = Fault OutOfBounds
    /\ ConvertV70LogFileToV71 heap_junk fp = Fault OutOfBounds.
Proof.
  intros H. exists (strlen (path fp)), (n_esc (c_str (path fp))).
  assert (Hj : 0 < n_esc (c_str (path fp))).
  { destruct (n_esc (c_str (path fp))) eqn:E; [|lia].
    apply n_esc_0 in E. apply Exists_exists in H as (c & Hin & Hc).
    rewrite Forall_forall in E. specialize (E c Hin).
    by destruct Hc as [-> | ->]. }
  assert (Hst : store (escaped (c_str (path fp)) ++
                  [heap_junk (strlen (path fp) + n_esc (c_str (path fp)))])
                  (strlen (path fp) + n_esc (c_str (path fp)) + 1) NUL
                = Fault OutOfBounds).
  { unfold store. rewrite decide_False; [done|].
    rewrite length_app, length_escaped. unfold strlen. simpl. lia. }
  repeat split; try done.
  - by rewrite convert_count_spec.
  - apply length_escaped.
  - apply convert_fill_smalloc.
  - unfold ConvertV70LogFileToV71. rewrite convert_count_spec. cbn [Nat.add].
    rewrite decide_True by lia.
    rewrite convert_fill_smalloc. cbn [mbind result_bind]. by rewrite Hst.
Qed.

Lemma escaped_head r : at_ (escaped r) 0 <> "$" /\ at_ (escaped r) 0 <> "~".
Proof.
  destruct r as [|c r]; [by split|]. cbn [escaped flat_map].
  destruct (needs_escape c) eqn:E; [by split|].
  change (at_ ([c] ++ _) 0) with c. unfold needs_escape in E.
  apply orb_false_elim in E as [E1%Ascii.eqb_neq E2%Ascii.eqb_neq]. done.
Qed.

Lemma scan_escaped getenv p : forall sk,
  cstring p -> scan getenv sk (escaped p) = p.
Proof.
  induction p as [|c r IH]; intros sk Hp; [apply scan_nil|].
  apply Forall_cons in Hp as [Hc Hr].
  cbn [escaped flat_map]. fold (escaped r).
  destruct (needs_escape c) eqn:E.
  - cbn [app]. rewrite scan_escape, IH; [done..|].
    unfold needs_escape in E. apply orb_true_iff in E.
    destruct E as [E%Ascii.eqb_eq|E%Ascii.eqb_eq]; auto.
  - cbn [app]. unfold needs_escape in E.
    apply orb_false_elim in E as [E1%Ascii.eqb_neq E2%Ascii.eqb_neq].
    destruct (Ascii.eqb_spec c "\") as [->|Hb].
    + destruct (escaped_head r). by rewrite scan_backslash, IH.
    + by rewrite scan_literal, IH.
Qed.

(** X6.  The conversion undoes the expansion: in any environment,
    [expand_envstrings] on the [i + j] bytes the second loop writes gives
    back the path. *)
Theorem convert_then_expand (getenv : list ascii -> option (list ascii))
    (heap_junk junk' : nat -> ascii) (p : list ascii) (i j : nat) :
  convert_count p 0 0 = (i, j) ->
  exists newpath,
    convert_fill p 0 0 (smalloc junk' (j + i + 1)) = Ok (i, j, newpath)
    /\ expand getenv heap_junk (take (i + j) newpath) = Some (c_str p).
Proof.
  rewrite convert_count_spec. intros [= <- <-]. cbn [Nat.add].
  eexists. split; [apply convert_fill_smalloc|].
  rewrite take_app_length' by (rewrite length_escaped; done).
  rewrite expand_expansion, expansion_scan, scan_escaped; [done|].
  apply c_str_cstring.
Qed.

(** X7.  For every input, [expand_envstrings] returns a block that is
    the expansion, a C string, followed by its terminator and by nothing
    else, whatever the allocation held. *)
Theorem expand_block_exact (getenv : list ascii -> option (list ascii))
    (junk1 junk2 : nat -> ascii) (str : list ascii) :
  expand_envstrings getenv junk1 str = expand_envstrings getenv junk2 str
  /\ exists out,
       expand_envstrings getenv junk1 str = Ok (out ++ [NUL])
       /\ cstring out
       /\ expand getenv junk1 str = Some out.
Proof.
  rewrite !expand_envstrings_ok. split; [done|].
  exists (expansion getenv str). split; [done|]. split.
  - apply output_from_cstring.
  - apply expand_expansion.
Qed.

(** X8.  The expansion of two texts put end to end is the expansion of
    the first followed by that of the second, when the first is a C
    string that closes its braces and nothing at its end is read together
    with the start of the second. *)
Theorem expand_concat (getenv : list ascii -> option (list ascii))
    (heap_junk : nat -> ascii) (pre rest : list ascii) :
  cstring pre -> braces_closed pre = true -> seam pre rest = true ->
  exists a b,
    expand getenv heap_junk pre = Some a
    /\ expand getenv heap_junk rest = Some b
    /\ expand getenv heap_junk (pre ++ rest) = Some (a ++ b).
Proof.
  intros Hpre Hclosed Hseam.
  exists (expansion getenv pre), (expansion getenv rest).
  rewrite !expand_expansion, !expansion_scan.
  by rewrite scan_app.
Qed.

(** X9.  [${}] is taken out and the empty name is not looked up:
    whatever the environment binds to it, the text expands as if the
    [${}] were not there. *)
Theorem empty_braces_vanish (getenv : list ascii -> option (list ascii))
    (heap_junk : nat -> ascii) (pre post : list ascii) :
  cstring pre -> braces_closed pre = true -> last pre <> Some "\" ->
  expand getenv heap_junk (pre ++ cs "${}" ++ post)
  = Some (expansion getenv pre ++ expansion getenv post).
Proof.
  intros Hpre Hclosed Hlast.
  rewrite expand_expansion, !expansion_scan.
  rewrite scan_app; [|done|done|by apply seam_unescaped; auto|done].
  f_equal. f_equal.
  apply (scan_brace getenv [] post); [constructor|by intros ?%elem_of_nil].
Qed.

(** *** On examples *)


(** [$HOME/x]: seven bytes are counted and one [$], the nine bytes of
    the block get [\$HOME/x] and a byte that is never written, and the
    terminator goes to offset 9. *)
Lemma convert_terminator_out_of_block_witness :
  Exists (fun c => c = "$" \/ c = "~")%char (c_str (cs "$HOME/x"))
  /\ convert_fill (cs "$HOME/x") 0 0 (smalloc demo_junk 9)
     = Ok (7, 1, cs "\$HOME/x#")
  /\ ConvertV70LogFileToV71 demo_junk {| path := cs "$HOME/x" |} = Fault OutOfBounds.
Proof.
  assert (H : Exists (fun c => c = "$" \/ c = "~")%char (c_str (cs "$HOME/x")))
    by (constructor; by left).
  split; [exact H|].
  destruct (convert_terminator_out_of_block demo_junk {| path := cs "$HOME/x" |} H)
    as (i & j & Hcount & _ & _ & _ & Hfill & _ & Hfault).
  injection Hcount as <- <-. split; [exact Hfill|exact Hfault].
Defined.

Lemma convert_then_expand_witness :
  convert_count (cs "~/a$b") 0 0 = (5, 2)
  /\ exists newpath,
       convert_fill (cs "~/a$b") 0 0 (smalloc demo_junk 8) = Ok (5, 2, newpath)
       /\ expand demo_env demo_junk (take 7 newpath) = Some (cs "~/a$b").
Proof.
  split; [reflexivity|].
  exact (convert_then_expand demo_env demo_junk demo_junk (cs "~/a$b") 5 2 eq_refl).
Defined.

Lemma expand_concat_witness :
  cstring (cs "$HOME") /\ braces_closed (cs "$HOME") = true
  /\ seam (cs "$HOME") (cs "/${FOO}") = true
  /\ exists a b,
       expand demo_env demo_junk (cs "$HOME") = Some a
       /\ expand demo_env demo_junk (cs "/${FOO}") = Some b
       /\ expand demo_env demo_junk (cs "$HOME/${FOO}") = Some (a ++ b).
Proof.
  assert (H1 : cstring (cs "$HOME")) by (repeat constructor; discriminate).
  split; [exact H1|]. split; [reflexivity|]. split; [reflexivity|].
  exact (expand_concat demo_env demo_junk (cs "$HOME") (cs "/${FOO}") H1 eq_refl eq_refl).
Defined.

(** An environment that binds the empty name all the same. *)
Lemma empty_braces_vanish_witness :
  cstring (cs "a") /\ braces_closed (cs "a") = true /\ last (cs "a") <> Some "\"%char
  /\ expand (fun _ => Some (cs "V")) demo_junk (cs "a${}b")
     = Some (expansion (fun _ => Some (cs "V")) (cs "a")
             ++ expansion (fun _ => Some (cs "V")) (cs "b")).
Proof.
  assert (H1 : cstring (cs "a")) by (repeat constructor; discriminate).
  assert (H3 : last (cs "a") <> Some "\"%char) by discriminate.
  split; [exact H1|]. split; [reflexivity|]. split; [exact H3|].
  exact (empty_braces_vanish (fun _ => Some (cs "V")) demo_junk (cs "a") (cs "b")
           H1 eq_refl H3).
Defined.

(** ** Descriptor flags *)

Lemma lor_sets a m : Z.land (Z.lor a m) m = m.
Proof.
  apply Z.bits_inj'. intros n Hn. rewrite Z.land_spec, Z.lor_spec.
  by destruct (Z.testbit a n), (Z.testbit m n).
Qed.

Lemma land_lnot_clears a m : Z.land (Z.land a (Z.lnot m)) m = 0%Z.
Proof.
  apply Z.bits_inj'. intros n Hn.
  rewrite !Z.land_spec, Z.lnot_spec, Z.bits_0 by done.
  by destruct (Z.testbit a n), (Z.testbit m n).
Qed.

Lemma lor_keeps a m n : Z.testbit m n = false -> Z.testbit (Z.lor a m) n = Z.testbit a n.
Proof. intros H. rewrite Z.lor_spec, H. apply orb_false_r. Qed.

Lemma land_lnot_keeps a m n :
  Z.testbit m n = false -> Z.testbit (Z.land a (Z.lnot m)) n = Z.testbit a n.
Proof.
  intros H. destruct (Z.neg_nonneg_cases n) as [Hn|Hn].
  - by rewrite !Z.testbit_neg_r.
  - rewrite Z.land_spec, Z.lnot_spec, H by done. apply andb_true_r.
Qed.

Section ProcessFacts.
Variable world : Type.
Variables FD_CLOEXEC O_NONBLOCK : Z.
Variable strerror : Z -> list ascii.
Variable sys_fcntl : Z -> fcntl_op -> world -> Z * Z * world.

Local Abbreviation cloexec := (cloexec world FD_CLOEXEC strerror sys_fcntl).
Local Abbreviation noncloexec := (noncloexec world FD_CLOEXEC strerror sys_fcntl).
Local Abbreviation nonblock := (nonblock world O_NONBLOCK strerror sys_fcntl).
Local Abbreviation no_nonblock := (no_nonblock world O_NONBLOCK strerror sys_fcntl).
Local Abbreviation ends_well := (ends_well strerror).

#[local] Existing Instances proc_ret proc_bind.

Ltac run_proc :=
  repeat progress (unfold mbind, mret, proc_bind, proc_ret, call_fcntl, die,
                     fputs_stderr, exit; cbn).

(** Both answers of the kernel taken apart. *)
Ltac two_calls fd w get set :=
  destruct (sys_fcntl fd get w) as [[f e1] w1] eqn:Hget; cbn;
  destruct (Z.ltb_spec f 0) as [Hf|Hf]; cbn;
  [|match goal with
    | |- context [sys_fcntl fd ?op w1] =>
        destruct (sys_fcntl fd op w1) as [[r e2] w2] eqn:Hset; cbn;
        destruct (Z.ltb_spec r 0) as [Hr|Hr]; cbn
    end].

(** X10.  When [nonblock] returns, it has made two calls, [F_GETFL] and
    [F_SETFL], neither of which failed; the value returned is the
    [O_NONBLOCK] part of the flags read, and the flags set have
    [O_NONBLOCK] on and every bit outside it as read.  [no_nonblock]
    likewise, with [O_NONBLOCK] off in the flags set. *)
Theorem nonblock_reports_previous (fd : Z) (w : world) (t : list event) :
  (forall r w' t',
     nonblock fd (w, t) = (Returns r, (w', t')) ->
     exists fdflags v ret e1 e2,
       t' = t ++ [EvFcntl fd F_GETFL fdflags e1; EvFcntl fd (F_SETFL v) ret e2]
       /\ (0 <= fdflags)%Z /\ (0 <= ret)%Z
       /\ r = Z.land fdflags O_NONBLOCK
       /\ Z.land v O_NONBLOCK = O_NONBLOCK
       /\ forall n, Z.testbit O_NONBLOCK n = false -> Z.testbit v n = Z.testbit fdflags n)
  /\ (forall r w' t',
        no_nonblock fd (w, t) = (Returns r, (w', t')) ->
        exists fdflags v ret e1 e2,
       t' = t ++ [EvFcntl fd F_GETFL fdflags e1; EvFcntl fd (F_SETFL v) ret e2]
          /\ (0 <= fdflags)%Z /\ (0 <= ret)%Z
          /\ r = Z.land fdflags O_NONBLOCK
          /\ Z.land v O_NONBLOCK = 0%Z
          /\ forall n, Z.testbit O_NONBLOCK n = false -> Z.testbit v n = Z.testbit fdflags n).
Proof.
  split; intros r0 w' t'.
  - unfold nonblock. run_proc. two_calls fd w F_GETFL F_SETFL; try done.
    intros [= <- <- <-]. eexists f, _, r, e1, e2. rewrite <- app_assoc.
    repeat split; try done; [apply lor_sets | intros n; apply lor_keeps].
  - unfold no_nonblock. run_proc. two_calls fd w F_GETFL F_SETFL; try done.
    intros [= <- <- <-]. eexists f, _, r, e1, e2. rewrite <- app_assoc.
    repeat split; try done; [apply land_lnot_clears | intros n; apply land_lnot_keeps].
Qed.

(** X11.  When [cloexec] returns, it has made two calls, [F_GETFD] and
    [F_SETFD], neither of which failed, and the flags set have
    [FD_CLOEXEC] on and every bit outside it as read.  [noncloexec]
    likewise, with [FD_CLOEXEC] off. *)
Theorem cloexec_sets_the_flag (fd : Z) (w : world) (t : list event) :
  (forall w' t',
     cloexec fd (w, t) = (Returns tt, (w', t')) ->
     exists fdflags v ret e1 e2,
       t' = t ++ [EvFcntl fd F_GETFD fdflags e1; EvFcntl fd (F_SETFD v) ret e2]
       /\ (0 <= fdflags)%Z /\ (0 <= ret)%Z
       /\ Z.land v FD_CLOEXEC = FD_CLOEXEC
       /\ forall n, Z.testbit FD_CLOEXEC n = false -> Z.testbit v n = Z.testbit fdflags n)
  /\ (forall w' t',
        noncloexec fd (w, t) = (Returns tt, (w', t')) ->
        exists fdflags v ret e1 e2,
       t' = t ++ [EvFcntl fd F_GETFD fdflags e1; EvFcntl fd (F_SETFD v) ret e2]
          /\ (0 <= fdflags)%Z /\ (0 <= ret)%Z
          /\ Z.land v FD_CLOEXEC = 0%Z
          /\ forall n, Z.testbit FD_CLOEXEC n = false -> Z.testbit v n = Z.testbit fdflags n).
Proof.
  split; intros w' t'.
  - unfold cloexec. run_proc. two_calls fd w F_GETFD F_SETFD; try done.
    intros [= <- <-]. eexists f, _, r, e1, e2. rewrite <- app_assoc.
    repeat split; try done; [apply lor_sets | intros n; apply lor_keeps].
  - unfold noncloexec. run_proc. two_calls fd w F_GETFD F_SETFD; try done.
    intros [= <- <-]. eexists f, _, r, e1, e2. rewrite <- app_assoc.
    repeat split; try done; [apply land_lnot_clears | intros n; apply land_lnot_keeps].
Qed.

Lemma ends_well_run {A : Type} (p : proc world A) (fd : Z) (get : fcntl_op)
    (set : Z -> fcntl_op) (val : Z -> A) w t :
  p = (fun st =>
         (call_fcntl world sys_fcntl fd get ≫= fun '(fdflags, errno) =>
          if (fdflags <? 0)%Z then die world strerror fd (op_name get) errno
          else
            call_fcntl world sys_fcntl fd (set fdflags) ≫= fun '(r, errno) =>
            if (r <? 0)%Z then die world strerror fd (op_name (set fdflags)) errno
            else mret (val fdflags)) st) ->
  exists new, (p (w, t)).2.2 = t ++ new /\ ends_well fd (p (w, t)).1 new.
Proof.
  intros ->. run_proc. two_calls fd w get set.
  - eexists. rewrite <- app_assoc. split; [done|]. split; [done|].
    exists [EvFcntl fd get f e1], get, f, e1. by repeat split; cbn; try lia.
  - eexists. rewrite <- !app_assoc. split; [done|]. split; [done|].
    exists [EvFcntl fd get f e1; EvFcntl fd (set f) r e2], (set f), r, e2.
    repeat split; cbn; try done; try lia. by repeat constructor.
  - eexists. rewrite <- !app_assoc. split; [done|].
    repeat split; cbn; try done. by repeat constructor.
Qed.

(** X12.  Each of the four routines ends as [ends_well] says: it
    returns after two calls that did not fail, having written nothing;
    or the call that failed is the last one made, one line naming it and
    the text of its [errno] is written to standard error, and the
    process exits with status 1.  In particular the flags are not set
    when they could not be read. *)
Theorem fcntl_failure_is_fatal (fd : Z) (w : world) (t : list event) :
  (exists new, (cloexec fd (w, t)).2.2 = t ++ new
               /\ ends_well fd (cloexec fd (w, t)).1 new)
  /\ (exists new, (noncloexec fd (w, t)).2.2 = t ++ new
                  /\ ends_well fd (noncloexec fd (w, t)).1 new)
  /\ (exists new, (nonblock fd (w, t)).2.2 = t ++ new
                  /\ ends_well fd (nonblock fd (w, t)).1 new)
  /\ (exists new, (no_nonblock fd (w, t)).2.2 = t ++ new
                  /\ ends_well fd (no_nonblock fd (w, t)).1 new).
Proof.
  repeat split.
  - by apply (ends_well_run _ fd F_GETFD
                (fun f => F_SETFD (Z.lor f FD_CLOEXEC)) (fun _ => tt)).
  - by apply (ends_well_run _ fd F_GETFD
                (fun f => F_SETFD (Z.land f (Z.lnot FD_CLOEXEC))) (fun _ => tt)).
  - by apply (ends_well_run _ fd F_GETFL
                (fun f => F_SETFL (Z.lor f O_NONBLOCK)) (fun f => Z.land f O_NONBLOCK)).
  - by apply (ends_well_run _ fd F_GETFL
                (fun f => F_SETFL (Z.land f (Z.lnot O_NONBLOCK)))
                (fun f => Z.land f O_NONBLOCK)).
Qed.

Lemma land_lor_lnot a m : Z.land (Z.lor a m) (Z.lnot m) = Z.land a (Z.lnot m).
Proof.
  apply Z.bits_inj'. intros n Hn.
  rewrite !Z.land_spec, Z.lor_spec, Z.lnot_spec by done.
  by destruct (Z.testbit a n), (Z.testbit m n).
Qed.

Lemma land_lnot_id a m : Z.land a m = 0%Z -> Z.land a (Z.lnot m) = a.
Proof.
  intros H. apply Z.bits_inj'. intros n Hn.
  pose proof (f_equal (fun x => Z.testbit x n) H) as Hb. cbn in Hb.
  rewrite Z.land_spec, Z.bits_0 in Hb.
  rewrite Z.land_spec, Z.lnot_spec by done.
  by destruct (Z.testbit a n), (Z.testbit m n).
Qed.

(** X13.  Where [F_GETFL] reads back what [F_SETFL] has set:
    [no_nonblock] called after [nonblock] reports [O_NONBLOCK] as the
    previous state and sets the flags first read with [O_NONBLOCK] off,
    which are those flags themselves when [nonblock] had reported 0. *)
Theorem nonblock_then_no_nonblock (fd : Z) (w : world) (t : list event)
    (was : Z) (st1 : world * list event) (r' : Z) (w' : world) (t' : list event) :
  (forall v w0 ret e w1, sys_fcntl fd (F_SETFL v) w0 = (ret, e, w1) ->
     (0 <= ret)%Z -> (sys_fcntl fd F_GETFL w1).1.1 = v) ->
  nonblock fd (w, t) = (Returns was, st1) ->
  no_nonblock fd st1 = (Returns r', (w', t')) ->
  r' = O_NONBLOCK
  /\ exists fdflags ret e,
       (sys_fcntl fd F_GETFL w).1.1 = fdflags
       /\ last t' = Some (EvFcntl fd (F_SETFL (Z.land fdflags (Z.lnot O_NONBLOCK))) ret e)
       /\ (was = 0%Z -> Z.land fdflags (Z.lnot O_NONBLOCK) = fdflags).
Proof.
  intros Hback. unfold nonblock, no_nonblock. run_proc.
  two_calls fd w F_GETFL F_SETFL; try done.
  intros [= <- <-]. run_proc.
  pose proof (Hback _ _ _ _ _ Hset Hr) as Hread.
  destruct (sys_fcntl fd F_GETFL w2) as [[f' e3] w3] eqn:Hget2. cbn in Hread. subst f'.
  cbn. destruct (Z.ltb_spec (Z.lor f O_NONBLOCK) 0) as [|Hf']; [done|]. cbn.
  destruct (sys_fcntl fd (F_SETFL _) w3) as [[r3 e4] w4] eqn:Hset2. cbn.
  destruct (Z.ltb_spec r3 0) as [|Hr3]; [done|]. cbn.
  intros [= <- <- <-]. split; [apply lor_sets|].
  exists f, r3, e4. split; [done|]. split.
  - rewrite land_lor_lnot. apply last_snoc.
  - apply land_lnot_id.
Qed.

End ProcessFacts.

(** *** On the example descriptors *)

Lemma nonblock_reports_previous_witness :
  nonblock demo_flags 2048 demo_strerror demo_fcntl 3 ((0, 2)%Z, [])
  = (Returns 0%Z,
     ((0, 2050)%Z, [EvFcntl 3 F_GETFL 2 0; EvFcntl 3 (F_SETFL 2050) 0 0]))
  /\ exists fdflags v ret e1 e2,
       [EvFcntl 3 F_GETFL 2 0; EvFcntl 3 (F_SETFL 2050) 0 0]
       = [] ++ [EvFcntl 3 F_GETFL fdflags e1; EvFcntl 3 (F_SETFL v) ret e2]
       /\ (0 <= fdflags)%Z /\ (0 <= ret)%Z
       /\ 0%Z = Z.land fdflags 2048
       /\ Z.land v 2048 = 2048%Z
       /\ forall n, Z.testbit 2048 n = false -> Z.testbit v n = Z.testbit fdflags n.
Proof.
  assert (H : nonblock demo_flags 2048 demo_strerror demo_fcntl 3 ((0, 2)%Z, [])
              = (Returns 0%Z,
                 ((0, 2050)%Z, [EvFcntl 3 F_GETFL 2 0; EvFcntl 3 (F_SETFL 2050) 0 0])))
    by reflexivity.
  split; [exact H|].
  exact (proj1 (nonblock_reports_previous demo_flags 2048 demo_strerror demo_fcntl
                  3 (0, 2)%Z []) _ _ _ H).
Defined.

Lemma cloexec_sets_the_flag_witness :
  cloexec demo_flags 1 demo_strerror demo_fcntl 3 ((0, 2)%Z, [])
  = (Returns tt, ((1, 2)%Z, [EvFcntl 3 F_GETFD 0 0; EvFcntl 3 (F_SETFD 1) 0 0]))
  /\ exists fdflags v ret e1 e2,
       [EvFcntl 3 F_GETFD 0 0; EvFcntl 3 (F_SETFD 1) 0 0]
       = [] ++ [EvFcntl 3 F_GETFD fdflags e1; EvFcntl 3 (F_SETFD v) ret e2]
       /\ (0 <= fdflags)%Z /\ (0 <= ret)%Z
       /\ Z.land v 1 = 1%Z
       /\ forall n, Z.testbit 1 n = false -> Z.testbit v n = Z.testbit fdflags n.
Proof.
  assert (H : cloexec demo_flags 1 demo_strerror demo_fcntl 3 ((0, 2)%Z, [])
              = (Returns tt,
                 ((1, 2)%Z, [EvFcntl 3 F_GETFD 0 0; EvFcntl 3 (F_SETFD 1) 0 0])))
    by reflexivity.
  split; [exact H|].
  exact (proj1 (cloexec_sets_the_flag demo_flags 1 demo_strerror demo_fcntl
                  3 (0, 2)%Z []) _ _ H).
Defined.

(** A descriptor that is refused: one call, one line, exit. *)
Example nonblock_bad_descriptor :
  nonblock demo_flags 2048 demo_strerror demo_fcntl (-1) ((0, 2)%Z, [])
  = (Exits 1,
     ((0, 2)%Z,
      [EvFcntl (-1) F_GETFL (-1) 9;
       EvStderr (cs "-1: fcntl(F_GETFL): Unknown error" ++ ["010"%char])])).
Proof. reflexivity. Qed.

Lemma demo_fcntl_reads_back (v : Z) (w0 : demo_flags) (ret e : Z) (w1 : demo_flags) :
  demo_fcntl 3 (F_SETFL v) w0 = (ret, e, w1) ->
  (0 <= ret)%Z -> (demo_fcntl 3 F_GETFL w1).1.1 = v.
Proof. cbn. by intros [= <- <- <-] _. Qed.

Lemma nonblock_then_no_nonblock_witness :
  nonblock demo_flags 2048 demo_strerror demo_fcntl 3 ((0, 2)%Z, [])
  = (Returns 0%Z,
     ((0, 2050)%Z, [EvFcntl 3 F_GETFL 2 0; EvFcntl 3 (F_SETFL 2050) 0 0]))
  /\ exists t',
       no_nonblock demo_flags 2048 demo_strerror demo_fcntl 3
         ((0, 2050)%Z, [EvFcntl 3 F_GETFL 2 0; EvFcntl 3 (F_SETFL 2050) 0 0])
       = (Returns 2048%Z, ((0, 2)%Z, t'))
       /\ exists fdflags ret e,
            (demo_fcntl 3 F_GETFL (0, 2)%Z).1.1 = fdflags
            /\ last t' = Some (EvFcntl 3 (F_SETFL (Z.land fdflags (Z.lnot 2048))) ret e)
            /\ (0%Z = 0%Z -> Z.land fdflags (Z.lnot 2048) = fdflags).
Proof.
  split; [reflexivity|]. eexists. split; [reflexivity|].
  exact (proj2 (nonblock_then_no_nonblock demo_flags 2048 demo_strerror demo_fcntl
                  3 (0, 2)%Z [] 0%Z _ 2048%Z (0, 2)%Z _
                  demo_fcntl_reads_back eq_refl eq_refl)).
Defined.

(** ** The user name *)

Section UserFacts.
Variable world : Type.
Variable sys_getuid : world -> Z.
Variable sys_getlogin : world -> option (list ascii) * world.
Variable sys_setpwent : world -> world.
Variable sys_getpwnam : list ascii -> world -> option passwd * world.
Variable sys_getpwuid : Z -> world -> option passwd * world.
Variable sys_endpwent : world -> world.

Local Abbreviation get_username :=
  (get_username world sys_getuid sys_getlogin sys_setpwent sys_getpwnam
     sys_getpwuid sys_endpwent).

#[local] Existing Instances proc_ret proc_bind.

Ltac run_user :=
  repeat progress (unfold mbind, mret, proc_bind, proc_ret, proc_getuid,
                     call_getlogin, call_setpwent, call_getpwnam, call_getpwuid,
                     call_endpwent, get_username_finish, get_username_by_uid; cbn).

(** Membership in a trace written out. *)
Ltac elem := repeat first [ apply list_elem_of_here | apply list_elem_of_further ].
Ltac mem_cases :=
  repeat match goal with
  | H : _ ∈ [] |- _ => by apply elem_of_nil in H
  | H : _ ∈ _ :: _ |- _ => apply elem_of_cons in H as [H|H]; simplify_eq
  end.
Ltac no_elem := let H := fresh in intros H; mem_cases.

Ltac user_cases w :=
  unfold get_username; run_user;
  destruct (sys_getlogin w) as [[user|] w1] eqn:Hlogin; run_user;
  [destruct (sys_getpwnam (c_str user) (sys_setpwent w1)) as [[p|] w2] eqn:Hnam; run_user;
   [destruct (Z.eqb_spec (pw_uid p) (sys_getuid w)) as [Huid|Huid]; run_user;
    [|destruct (sys_getpwuid (sys_getuid w) w2) as [[q|] w3] eqn:Hpwuid; run_user]
   |destruct (sys_getpwuid (sys_getuid w) w2) as [[q|] w3] eqn:Hpwuid; run_user]
  |destruct (sys_getpwuid (sys_getuid w) (sys_setpwent w1)) as [[q|] w3] eqn:Hpwuid;
   run_user].

(** X14.  [get_username] always returns.  A name returned is a C
    string, and it is either the login name, the entry [getpwnam] found
    for it having the uid of the process, in which case [getpwuid] was
    not called; or the name of the entry [getpwuid] found for the uid of
    the process, the login name, if any, having no entry with that uid.
    The result is null only when the last call made is that [getpwuid],
    and it found nothing. *)
Theorem get_username_result (w : world) (t : list event) :
  exists r w' new,
    get_username (w, t) = (Returns r, (w', t ++ new))
    /\ match r with
       | Some n =>
           cstring n
           /\ ((exists user p,
                  EvGetlogin (Some user) ∈ new
                  /\ EvGetpwnam (c_str user) (Some p) ∈ new
                  /\ pw_uid p = sys_getuid w
                  /\ n = c_str user
                  /\ filter is_getpwuid new = [])
               \/ (exists p,
                     EvGetpwuid (sys_getuid w) (Some p) ∈ new
                     /\ n = c_str (pw_name p)
                     /\ forall user p', EvGetlogin (Some user) ∈ new ->
                          EvGetpwnam (c_str user) (Some p') ∈ new ->
                          pw_uid p' <> sys_getuid w))
       | None =>
           last new = Some (EvGetpwuid (sys_getuid w) None)
       end.
Proof.
  user_cases w; eexists _, _, _; rewrite <- ?app_assoc; (split; [reflexivity|]);
    cbn [app]; try done; (split; [apply c_str_cstring|]).
  - left. exists user, p. repeat split; try done; elem.
  - right. exists q. repeat split; [elem|].
    intros u p' Hu Hp. mem_cases. done.
  - right. exists q. repeat split; [elem|]. intros u p' Hu Hp. mem_cases.
  - right. exists q. repeat split; [elem|]. intros u p' Hu Hp. mem_cases.
Qed.

(** X15.  [get_username] opens the password database once, by
    [setpwent], after [getuid] and [getlogin] and before any look-up.
    When it returns a name, [endpwent] is called once, as the last call
    made; when it returns null, [endpwent] is not called: the database
    stays open. *)
Theorem get_username_leaves_database_open (w : world) (t : list event) :
  exists r w' new,
    get_username (w, t) = (Returns r, (w', t ++ new))
    /\ (exists login rest,
          new = EvGetuid (sys_getuid w) :: EvGetlogin login :: EvSetpwent :: rest
          /\ EvSetpwent ∉ rest)
    /\ (r <> None -> exists calls, new = calls ++ [EvEndpwent] /\ EvEndpwent ∉ calls)
    /\ (r = None -> EvEndpwent ∉ new).
Proof.
  user_cases w; eexists _, _, _; rewrite <- ?app_assoc; (split; [reflexivity|]);
    cbn [app]; (split; [eexists _, _; split; [reflexivity|no_elem]|]);
    (split; [|try done; intros _; no_elem]); try done; intros _.
  - by eexists [_; _; _; _]; split; [|no_elem].
  - by eexists [_; _; _; _; _]; split; [|no_elem].
  - by eexists [_; _; _; _; _]; split; [|no_elem].
  - by eexists [_; _; _; _]; split; [|no_elem].
Qed.

End UserFacts.

(** ** Directories, continued *)

Lemma prefixes_from_last rest : forall done,
  done ++ rest <> [] -> last (prefixes_from done rest) = Some (done ++ rest).
Proof.
  induction rest as [|c r IH]; intros done Hne; cbn [prefixes_from].
  - rewrite app_nil_r in *. by rewrite decide_False.
  - rewrite last_app, IH by (by destruct done).
    by rewrite <- app_assoc.
Qed.

Lemma prefixes_from_cstring rest : forall done,
  cstring (done ++ rest) -> Forall cstring (prefixes_from done rest).
Proof.
  induction rest as [|c r IH]; intros done Hc; cbn [prefixes_from].
  - rewrite app_nil_r in Hc. case_decide; by repeat constructor.
  - apply Forall_app. split.
    + apply Forall_app in Hc as [Hd _]. destruct (_ && _); by repeat constructor.
    + apply IH. by rewrite <- app_assoc.
Qed.

Lemma split_last_slash (p : list ascii) :
  "/" ∈ p -> exists parent file, p = parent ++ "/" :: file /\ "/" ∉ file.
Proof.
  induction p as [|c r IH]; [by intros ?%elem_of_nil|].
  intros Hin. destruct (decide ("/" ∈ r)) as [Hr|Hr].
  - destruct (IH Hr) as (parent & file & -> & Hfile). by exists (c :: parent), file.
  - apply elem_of_cons in Hin as [<-|]; [|done]. by exists [], r.
Qed.

Section DirFacts.
Variable world : Type.
Variable EEXIST : Z.
Variable strerror : Z -> list ascii.
Variable sys_mkdir : list ascii -> Z -> world -> option Z * world.
Variable sys_access : list ascii -> world -> bool.

Local Abbreviation msg_mkdir := (msg_mkdir strerror).
Local Abbreviation ensure_dir_chain := (ensure_dir_chain world EEXIST strerror sys_mkdir).
Local Abbreviation make_dir_path := (make_dir_path world EEXIST strerror sys_mkdir).
Local Abbreviation mkdir_path := (mkdir_path world EEXIST strerror sys_mkdir sys_access).
Local Abbreviation mkdir_laws := (mkdir_laws world EEXIST sys_mkdir).
Local Abbreviation passed := (passed EEXIST).

Ltac run_dirs :=
  repeat progress
    (unfold mbind, mret, sys_bind, sys_ret, call_mkdir, call_access; cbn).

Lemma ensure_dir_chain_trace dirs mode : forall w t,
  Forall cstring dirs ->
  exists r w1 rets,
    ensure_dir_chain dirs mode (w, t) = (r, (w1, t ++ mkdirs dirs mode rets))
    /\ match r with
       | None => length rets = length dirs /\ Forall passed rets
       | Some msg =>
           exists oks errno d,
             rets = oks ++ [Some errno] /\ Forall passed oks /\ errno <> EEXIST
             /\ dirs !! length oks = Some d /\ msg = msg_mkdir d errno
       end.
Proof.
  induction dirs as [|d dirs IH]; intros w t Hc.
  - exists None, w, []. cbn. rewrite app_nil_r. by repeat split.
  - apply Forall_cons in Hc as [Hd Hdirs]. run_dirs. rewrite (c_str_id d) by done.
    destruct (sys_mkdir d mode w) as [r w'] eqn:Hmk.
    assert (Hgo : passed r -> exists r' w1 rets,
              ensure_dir_chain dirs mode (w', t ++ [Mkdir d mode r])
              = (r', (w1, t ++ mkdirs (d :: dirs) mode rets))
              /\ match r' with
                 | None => length rets = length (d :: dirs) /\ Forall passed rets
                 | Some msg =>
                     exists oks errno d',
                       rets = oks ++ [Some errno] /\ Forall passed oks /\ errno <> EEXIST
                       /\ (d :: dirs) !! length oks = Some d' /\ msg = msg_mkdir d' errno
                 end).
    { intros Hr. destruct (IH w' (t ++ [Mkdir d mode r]) Hdirs) as (r' & w1 & rets & -> & Hres).
      exists r', w1, (r :: rets). rewrite <- app_assoc. split; [done|].
      destruct r' as [msg|].
      - destruct Hres as (oks & errno & d' & -> & Hoks & Hne & Hd' & ->).
        exists (r :: oks), errno, d'. split; [done|]. split; [by constructor|]. done.
      - destruct Hres as [Hlen Hall]. split; [cbn; lia|by constructor]. }
    destruct r as [errno|]; cbn; [|apply Hgo; by left].
    destruct (Z.eqb_spec errno EEXIST) as [->|Hne]; cbn; [apply Hgo; by right|].
    exists (Some (msg_mkdir d errno)), w', [Some errno]. split; [done|].
    exists [], errno, d. by repeat split.
Qed.

(** X16.  The calls [make_dir_path] makes are [mkdir] calls on the
    prefixes [slash_prefixes] of the path, in order and with the mode
    given, one for each answer received.  When the result is null there
    is one for every prefix, each answered with success or [EEXIST].
    When it is a message, the last call is the only one answered with
    another error, nothing is tried after it, and the message is made of
    its prefix and of that error. *)
Theorem make_dir_path_stops_at_failure (path : list ascii) (mode : Z)
    (w : world) (t : list syscall) :
  cstring path ->
  exists r w1 rets,
    make_dir_path path mode (w, t)
    = (Ok r, (w1, t ++ mkdirs (slash_prefixes path) mode rets))
    /\ match r with
       | None => length rets = length (slash_prefixes path) /\ Forall passed rets
       | Some msg =>
           exists oks errno d,
             rets = oks ++ [Some errno] /\ Forall passed oks /\ errno <> EEXIST
             /\ slash_prefixes path !! length oks = Some d /\ msg = msg_mkdir d errno
       end.
Proof.
  intros Hpath. rewrite make_dir_path_is_chain by done.
  destruct (ensure_dir_chain_trace (slash_prefixes path) mode w t)
    as (r & w1 & rets & -> & Hres).
  { by apply prefixes_from_cstring. }
  by exists r, w1, rets.
Qed.

(** X17.  When [make_dir_path] returns null on a path that is not
    empty, the last call it made is the [mkdir] of the whole path,
    answered with success or [EEXIST]; so, for a [mkdir] that obeys
    [mkdir_laws], the directory is there afterwards. *)
Theorem make_dir_path_reaches_path (path : list ascii) (mode : Z)
    (w w1 : world) (t t1 : list syscall) :
  cstring path -> path <> [] ->
  make_dir_path path mode (w, t) = (Ok None, (w1, t1)) ->
  (exists r, last t1 = Some (Mkdir path mode r) /\ passed r)
  /\ forall present, mkdir_laws present -> present w1 path.
Proof.
  intros Hpath Hne Hrun.
  assert (Hlast : last (slash_prefixes path) = Some path)
    by (by apply (prefixes_from_last path [])).
  split.
  - rewrite make_dir_path_is_chain in Hrun by done.
    destruct (ensure_dir_chain_trace (slash_prefixes path) mode w t)
      as (r & w' & rets & Heq & Hres); [by apply prefixes_from_cstring|].
    rewrite Heq in Hrun. injection Hrun as -> -> <-. destruct Hres as [Hlen Hall].
    destruct (slash_prefixes path) as [|d ds] using rev_ind; [done|].
    destruct rets as [|r rs _] using rev_ind; [by rewrite length_app in Hlen; cbn in Hlen; lia|].
    rewrite last_snoc in Hlast. injection Hlast as ->.
    rewrite !length_app in Hlen. cbn in Hlen.
    unfold mkdirs. rewrite zip_with_app by lia. cbn.
    rewrite app_assoc, last_snoc. exists r. split; [done|].
    by apply Forall_app in Hall as [_ [? _]%Forall_cons].
  - intros present laws. rewrite make_dir_path_is_chain in Hrun by done.
    destruct (ensure_dir_chain _ _ _) as [r' [w' t']] eqn:Hchain.
    injection Hrun as -> -> ->.
    pose proof (chain_creates _ _ _ _ present laws _ _ _ _ _ _ Hchain) as Hall.
    rewrite Forall_forall in Hall. rewrite <- (c_str_id path) by done.
    apply Hall. apply last_Some_elem_of, Hlast.
Qed.

(** X18.  [mkdir_path] makes no call, or starts with the [access], and
    every [mkdir] it makes has mode [0777] and is on a non-empty part of
    the path that a slash follows: no directory is made under the name
    of the file itself. *)
Theorem mkdir_path_spares_the_file (fn : Filename) (w w1 : world)
    (t t1 : list syscall) (r : result (option (list ascii))) :
  cstring (path fn) ->
  mkdir_path fn (w, t) = (r, (w1, t1)) ->
  exists new,
    t1 = t ++ new
    /\ (new = [] \/ exists parent found, head new = Some (Access parent found))
    /\ forall p mode ret,
         Mkdir p mode ret ∈ new ->
         mode = 511%Z /\ p <> [] /\ exists rest, path fn = p ++ "/" :: rest.
Proof.
  intros Hpath. unfold mkdir_path.
  destruct (decide ("/" ∈ path fn)) as [Hin|Hnot].
  2:{ rewrite strrchr_none by done. intros [= _ <- <-]. exists [].
      rewrite app_nil_r. split; [done|]. split; [by left|].
      by intros ? ? ? ?%elem_of_nil. }
  destruct (split_last_slash _ Hin) as (parent & file & Hsplit & Hfile).
  rewrite Hsplit in Hpath. apply Forall_app in Hpath as Hboth.
  destruct Hboth as [Hparent _].
  assert (Hprefix : dup_prec (length parent) (path fn) = parent).
  { unfold dup_prec. rewrite Hsplit, c_str_id by done. apply take_app_length. }
  rewrite Hsplit, strrchr_last by done. rewrite <- Hsplit, Hprefix.
  unfold mbind, mret, sys_bind, sys_ret, call_access. rewrite (c_str_id parent) by done.
  destruct (sys_access parent w).
  { intros [= _ <- <-]. eexists. split; [done|]. split; [right; by eexists _, _|].
    intros p mode ret Hm. apply list_elem_of_singleton in Hm. done. }
  rewrite make_dir_path_is_chain by done.
  destruct (ensure_dir_chain_trace (slash_prefixes parent) 511 w (t ++ [Access parent false]))
    as (r' & w' & rets & -> & _); [by apply prefixes_from_cstring|].
  intros [= _ <- <-]. eexists. rewrite <- app_assoc. split; [done|].
  split; [right; by eexists _, _|].
  intros p mode ret Hm. cbn in Hm. apply elem_of_cons in Hm as [Hm|Hm]; [done|].
  apply elem_of_zip_with in Hm as (ret' & d & [= -> <- ->] & _ & Hd).
  split; [done|].
  apply slash_prefixes_spec in Hd as (k & Hk & -> & Hne & Hend).
  split; [done|]. rewrite Hsplit. destruct Hend as [->|[Hat _]].
  - rewrite firstn_all. by exists file.
  - assert (Hdrop : drop k parent = "/" :: drop (S k) parent).
    { rewrite <- Hat. apply drop_at. by rewrite Hat. }
    exists (drop (S k) parent ++ "/" :: file).
    rewrite <- (take_drop k parent) at 1. rewrite Hdrop, <- app_assoc. done.
Qed.
End DirFacts.

(** *** On the example operating system *)

(** Where every [mkdir] is refused with an error other than [EEXIST],
    the first prefix is the only one tried. *)
Example make_dir_path_refused :
  make_dir_path unit 17 demo_strerror (fun _ _ w => (Some 13%Z, w)) (cs "a/b") 448 (tt, [])
  = (Ok (Some (cs "a: mkdir: Unknown error")), (tt, [Mkdir (cs "a") 448 (Some 13%Z)])).
Proof. reflexivity. Qed.

Lemma make_dir_path_stops_at_failure_witness :
  cstring (cs "a/b")
  /\ exists r w1 rets,
       make_dir_path unit 17 demo_strerror (fun _ _ w => (Some 13%Z, w)) (cs "a/b") 448
         (tt, [])
       = (Ok r, (w1, [] ++ mkdirs (slash_prefixes (cs "a/b")) 448 rets))
       /\ match r with
          | None => length rets = length (slash_prefixes (cs "a/b"))
                    /\ Forall (passed 17) rets
          | Some msg =>
              exists oks errno d,
                rets = oks ++ [Some errno] /\ Forall (passed 17) oks /\ errno <> 17%Z
                /\ slash_prefixes (cs "a/b") !! length oks = Some d
                /\ msg = msg_mkdir demo_strerror d errno
          end.
Proof.
  assert (H1 : cstring (cs "a/b")) by (repeat constructor; discriminate).
  split; [exact H1|].
  exact (make_dir_path_stops_at_failure unit 17 demo_strerror
           (fun _ _ w => (Some 13%Z, w)) (cs "a/b") 448 tt [] H1).
Defined.

Lemma make_dir_path_reaches_path_witness :
  cstring (cs "/a/b") /\ cs "/a/b" <> []
  /\ exists w1 t1,
       make_dir_path demo_world 17 demo_strerror demo_mkdir (cs "/a/b") 448 ([], [])
       = (Ok None, (w1, t1))
       /\ (exists r, last t1 = Some (Mkdir (cs "/a/b") 448 r) /\ passed 17 r)
       /\ demo_present w1 (cs "/a/b").
Proof.
  assert (H1 : cstring (cs "/a/b")) by (repeat constructor; discriminate).
  assert (H2 : cs "/a/b" <> []) by discriminate.
  split; [exact H1|]. split; [exact H2|].
  set (run := make_dir_path demo_world 17 demo_strerror demo_mkdir (cs "/a/b") 448 ([], [])).
  assert (E : run = (Ok None, (run.2.1, run.2.2))) by (vm_compute; reflexivity).
  exists run.2.1, run.2.2. split; [exact E|].
  destruct (make_dir_path_reaches_path demo_world 17 demo_strerror demo_mkdir
              (cs "/a/b") 448 [] run.2.1 [] run.2.2 H1 H2 E) as [Hlast Hthere].
  split; [exact Hlast|exact (Hthere demo_present demo_mkdir_laws)].
Defined.

Lemma mkdir_path_spares_the_file_witness :
  cstring (cs "/a/b/file")
  /\ exists r w1 t1,
       mkdir_path demo_world 17 demo_strerror demo_mkdir demo_access
         {| path := cs "/a/b/file" |} ([], [])
       = (r, (w1, t1))
       /\ exists new,
            t1 = [] ++ new
            /\ (new = [] \/ exists parent found, head new = Some (Access parent found))
            /\ forall p mode ret,
                 Mkdir p mode ret ∈ new ->
                 mode = 511%Z /\ p <> [] /\ exists rest, cs "/a/b/file" = p ++ "/"%char :: rest.
Proof.
  assert (H1 : cstring (cs "/a/b/file")) by (repeat constructor; discriminate).
  split; [exact H1|].
  set (run := mkdir_path demo_world 17 demo_strerror demo_mkdir demo_access
                {| path := cs "/a/b/file" |} ([], [])).
  assert (E : run = (run.1, (run.2.1, run.2.2))) by (vm_compute; reflexivity).
  exists run.1, run.2.1, run.2.2. split; [exact E|].
  exact (mkdir_path_spares_the_file demo_world 17 demo_strerror demo_mkdir demo_access
           {| path := cs "/a/b/file" |} [] run.2.1 [] run.2.2 run.1 H1 E).
Defined.
